(** * Music Streaming System: singleton player, playback strategies and
      playlist decorators

    A shallow embedding of [Music_Streaming_System.py].  Python objects with
    mutable attributes live in an explicit store; every method is a
    computation in a state-and-exception monad over that store.  Console
    output and [time.sleep] calls are recorded, oldest first, in the store's
    output log. *)

From Stdlib Require Import QArith Qround Qabs Qpower Lqa.
From Stdlib Require SpecFloat.
From stdpp Require Import base option list gmap strings pretty.

Local Open Scope Z_scope.

(** ** Data model *)

(** [class Song]: four attributes assigned once in [__init__]. *)
Record Song := mkSong {
  title : string;
  artist : string;
  duration : Z;
  format_type : string
}.

(** The three concrete [PlaybackStrategy] classes.  They carry no
    attributes, so an instance is determined by its class. *)
Inductive PlaybackStrategy := MP3Strategy | FLACStrategy | StreamingStrategy.

Global Instance PlaybackStrategy_eq_dec : EqDecision PlaybackStrategy.
Proof. solve_decision. Defined.

(** Addresses of objects in the store. *)
Abbreviation loc := nat (only parsing).

(** Attributes that [MusicPlayer.__init__] assigns. *)
Record player_attrs := mkPlayer {
  current_song : option Song;
  is_playing : bool;
  volume : Z;
  playback_strategy : option PlaybackStrategy
}.

(** A [MusicPlayer] object.  [Fresh] is the object as [__new__] leaves it:
    [_initialized = False] and no other attribute.  [Ready a] is the object
    once [__init__] has run: [_initialized = True] and the attributes [a]. *)
Inductive MusicPlayer_obj :=
| Fresh
| Ready (a : player_attrs).

(** One constructor per [print] call of the source, carrying the values the
    f-string interpolates. *)
Inductive message :=
| MsgPlayerInitialized
| MsgNoStrategy
| MsgPaused (song_title : string)
| MsgStopped
| MsgVolume (v : Z)
| MsgPlaying (s : PlaybackStrategy) (song_title song_artist : string)
| MsgDecoder (s : PlaybackStrategy)
| MsgAdded (song_title playlist_name : string)
| MsgPlayingPlaylist (playlist_name : string)
| MsgShuffleEnabled
| MsgPlayingShuffled
| MsgRepeatEnabled (repeat_count : Z)
| MsgRound (round : Z)
| MsgRepeating
| MsgAnalyticsEnabled
| MsgSessionComplete (play_count : Z).

(** An entry of the output log: a printed line, or a [time.sleep] of so
    many seconds. *)
Inductive event :=
| Print (m : message)
| Sleep (seconds : Q).

(** The mutable attributes of an [AnalyticsDecorator]. *)
Record stats := mkStats {
  play_count : Z;
  total_listening_time : Q
}.

(** The store.
    - [w_instance] is the class attribute [MusicPlayer._instance];
    - [w_players] holds every [MusicPlayer] object allocated so far;
    - [w_lists] holds the Python list objects (a playlist's [songs], and
      the copies [get_songs] hands out);
    - [w_stats] holds the counters of the [AnalyticsDecorator] objects;
    - [w_out] is the console and sleep log;
    - [w_rand], [w_rand_pos]: the values the random generator will yield,
      and how many were consumed;
    - [w_clock], [w_clock_pos]: the successive readings of [time.time()].
    A time is the exact rational value of the float the program holds.
    Clock readings are subtracted and summed exactly; the division and the
    decimal rounding of [get_analytics] round to binary64 as the floats
    do. *)
Record world := mkWorld {
  w_instance : option loc;
  w_players : list MusicPlayer_obj;
  w_lists : list (list Song);
  w_stats : list stats;
  w_out : list event;
  w_rand : nat → nat;
  w_rand_pos : nat;
  w_clock : nat → Q;
  w_clock_pos : nat
}.

Definition set_instance (v : option loc) (w : world) : world :=
  mkWorld v (w_players w) (w_lists w) (w_stats w) (w_out w)
          (w_rand w) (w_rand_pos w) (w_clock w) (w_clock_pos w).
Definition set_players (v : list MusicPlayer_obj) (w : world) : world :=
  mkWorld (w_instance w) v (w_lists w) (w_stats w) (w_out w)
          (w_rand w) (w_rand_pos w) (w_clock w) (w_clock_pos w).
Definition set_lists (v : list (list Song)) (w : world) : world :=
  mkWorld (w_instance w) (w_players w) v (w_stats w) (w_out w)
          (w_rand w) (w_rand_pos w) (w_clock w) (w_clock_pos w).
Definition set_stats (v : list stats) (w : world) : world :=
  mkWorld (w_instance w) (w_players w) (w_lists w) v (w_out w)
          (w_rand w) (w_rand_pos w) (w_clock w) (w_clock_pos w).
Definition set_out (v : list event) (w : world) : world :=
  mkWorld (w_instance w) (w_players w) (w_lists w) (w_stats w) v
          (w_rand w) (w_rand_pos w) (w_clock w) (w_clock_pos w).
Definition set_rand_pos (v : nat) (w : world) : world :=
  mkWorld (w_instance w) (w_players w) (w_lists w) (w_stats w) (w_out w)
          (w_rand w) v (w_clock w) (w_clock_pos w).
Definition set_clock_pos (v : nat) (w : world) : world :=
  mkWorld (w_instance w) (w_players w) (w_lists w) (w_stats w) (w_out w)
          (w_rand w) (w_rand_pos w) (w_clock w) v.

(** ** The monad: state passing over [world], [None] for a raised exception *)

Definition M (A : Type) : Type := world → option (A * world).

Global Instance M_ret : MRet M := λ A x w, Some (x, w).
Global Instance M_bind : MBind M := λ A B k m w,
  match m w with
  | Some (x, w') => k x w'
  | None => None
  end.

Definition raise {A} : M A := λ _, None.
Definition get_world : M world := λ w, Some (w, w).
Definition modify (f : world → world) : M unit := λ w, Some (tt, f w).

(** A Python value that may be missing: raises when it is. *)
Definition lift {A} (o : option A) : M A :=
  match o with
  | Some x => mret x
  | None => raise
  end.

(** [for x in xs: body(x)] *)
Fixpoint for_ {A} (xs : list A) (body : A → M unit) : M unit :=
  match xs with
  | [] => mret tt
  | x :: rest => body x;; for_ rest body
  end.

(** [range(n)] over Python integers: empty when [n <= 0]. *)
Definition range (n : Z) : list Z := seqZ 0 n.

(** ** Primitive effects *)

Definition print (m : message) : M unit :=
  modify (λ w, set_out (w_out w ++ [Print m]) w).

Definition sleep (seconds : Q) : M unit :=
  modify (λ w, set_out (w_out w ++ [Sleep seconds]) w).

(** [time.time()]: the next clock reading. *)
Definition time_time : M Q := λ w,
  Some (w_clock w (w_clock_pos w), set_clock_pos (S (w_clock_pos w)) w).

(** [random._randbelow(n)]: the next generator value, reduced below [n]. *)
Definition randbelow (n : nat) : M nat := λ w,
  Some (w_rand w (w_rand_pos w) `mod` n, set_rand_pos (S (w_rand_pos w)) w)%nat.

(** ** Singleton: [class MusicPlayer] *)

Definition player_obj (self : loc) : M MusicPlayer_obj :=
  w ← get_world; lift (w_players w !! self).

(** Reading an attribute of [self]; an object that [__init__] has not
    initialised has none (AttributeError). *)
Definition player_get (self : loc) : M player_attrs :=
  o ← player_obj self;
  match o with
  | Ready a => mret a
  | Fresh => raise
  end.

Definition player_put (self : loc) (a : player_attrs) : M unit :=
  modify (λ w, set_players (<[self := Ready a]> (w_players w)) w).

Definition with_current_song (v : option Song) (a : player_attrs) :=
  mkPlayer v (is_playing a) (volume a) (playback_strategy a).
Definition with_is_playing (v : bool) (a : player_attrs) :=
  mkPlayer (current_song a) v (volume a) (playback_strategy a).
Definition with_volume (v : Z) (a : player_attrs) :=
  mkPlayer (current_song a) (is_playing a) v (playback_strategy a).
Definition with_playback_strategy (v : option PlaybackStrategy) (a : player_attrs) :=
  mkPlayer (current_song a) (is_playing a) (volume a) v.

(** [self.attr = v] on an initialised player. *)
Definition player_update (self : loc) (f : player_attrs → player_attrs) : M unit :=
  a ← player_get self; player_put self (f a).

(** [MusicPlayer.__new__]: the outer test, then the same test again under
    the lock (a single thread always acquires it). *)
Definition MusicPlayer_new : M loc :=
  w ← get_world;
  match w_instance w with
  | None =>
      w ← get_world;
      match w_instance w with
      | None =>
          let a := length (w_players w) in
          modify (λ w, set_instance (Some a) (set_players (w_players w ++ [Fresh]) w));;
          mret a
      | Some a => mret a
      end
  | Some a => mret a
  end.

(** [MusicPlayer.__init__] *)
Definition MusicPlayer_init (self : loc) : M unit :=
  o ← player_obj self;
  match o with
  | Ready _ => mret tt
  | Fresh =>
      player_put self (mkPlayer None false 50 None);;
      print MsgPlayerInitialized
  end.

(** The call [MusicPlayer()]: [__new__], then [__init__] on its result. *)
Definition MusicPlayer : M loc :=
  self ← MusicPlayer_new; MusicPlayer_init self;; mret self.

Definition MusicPlayer_set_playback_strategy (self : loc) (strategy : PlaybackStrategy) : M unit :=
  player_update self (with_playback_strategy (Some strategy)).

(** ** Strategy: the three [play] methods *)

Definition MP3Strategy_play (song : Song) : M unit :=
  print (MsgPlaying MP3Strategy (title song) (artist song));;
  print (MsgDecoder MP3Strategy);;
  sleep (5 # 10).

Definition FLACStrategy_play (song : Song) : M unit :=
  print (MsgPlaying FLACStrategy (title song) (artist song));;
  print (MsgDecoder FLACStrategy);;
  sleep 1.

Definition StreamingStrategy_play (song : Song) : M unit :=
  print (MsgPlaying StreamingStrategy (title song) (artist song));;
  print (MsgDecoder StreamingStrategy);;
  sleep (3 # 10).

(** Dynamic dispatch of [strategy.play(song)]. *)
Definition PlaybackStrategy_play (s : PlaybackStrategy) : Song → M unit :=
  match s with
  | MP3Strategy => MP3Strategy_play
  | FLACStrategy => FLACStrategy_play
  | StreamingStrategy => StreamingStrategy_play
  end.

Definition get_format_info (s : PlaybackStrategy) : string :=
  match s with
  | MP3Strategy => "MP3: Lossy compression, smaller file size"
  | FLACStrategy => "FLAC: Lossless compression, high quality audio"
  | StreamingStrategy => "Streaming: Adaptive bitrate, network dependent"
  end.

(** ** [MusicPlayer] methods *)

Definition MusicPlayer_play (self : loc) (song : Song) : M unit :=
  a ← player_get self;
  match playback_strategy a with
  | None => print MsgNoStrategy
  | Some _ =>
      player_update self (with_current_song (Some song));;
      player_update self (with_is_playing true);;
      a ← player_get self;
      s ← lift (playback_strategy a);
      PlaybackStrategy_play s song
  end.

Definition MusicPlayer_pause (self : loc) : M unit :=
  a ← player_get self;
  if is_playing a then
    player_update self (with_is_playing false);;
    a ← player_get self;
    print (MsgPaused (from_option title "Unknown" (current_song a)))
  else mret tt.

Definition MusicPlayer_stop (self : loc) : M unit :=
  player_update self (with_is_playing false);;
  player_update self (with_current_song None);;
  print MsgStopped.

Definition MusicPlayer_set_volume (self : loc) (v : Z) : M unit :=
  player_update self (with_volume (Z.max 0 (Z.min 100 v)));;
  a ← player_get self;
  print (MsgVolume (volume a)).

Definition MusicPlayer_get_status (self : loc) : M string :=
  a ← player_get self;
  let status := if is_playing a then "Playing" else "Stopped" in
  let song_title := from_option title "None" (current_song a) in
  mret ("Status: " +:+ status +:+ " | Song: " +:+ song_title
        +:+ " | Volume: " +:+ pretty (volume a)).

(** ** Python list objects *)

Definition list_read (l : loc) : M (list Song) :=
  w ← get_world; lift (w_lists w !! l).

Definition list_write (l : loc) (xs : list Song) : M unit :=
  modify (λ w, set_lists (<[l := xs]> (w_lists w)) w).

Definition list_alloc (xs : list Song) : M loc :=
  w ← get_world;
  modify (λ w, set_lists (w_lists w ++ [xs]) w);;
  mret (length (w_lists w)).

(** [l.append(x)] *)
Definition list_append (l : loc) (x : Song) : M unit :=
  xs ← list_read l; list_write l (xs ++ [x]).

(** [l.copy()]: a new list object with the same items. *)
Definition list_copy (l : loc) : M loc :=
  xs ← list_read l; list_alloc xs.

(** [l[i]] for [0 <= i]; IndexError past the end. *)
Definition list_getitem (l : loc) (i : nat) : M Song :=
  xs ← list_read l; lift (xs !! i).

(** [l[i] = v] for [0 <= i]; IndexError past the end. *)
Definition list_setitem (l : loc) (i : nat) (v : Song) : M unit :=
  xs ← list_read l;
  if decide (i < length xs)%nat then list_write l (<[i := v]> xs) else raise.

(** [random.shuffle(x)], the standard library's in-place loop:
    [for i in reversed(range(1, len(x))): j = randbelow(i + 1);
     x[i], x[j] = x[j], x[i]].  [shuffle_step] is its body. *)
Definition shuffle_step (x : loc) (i : nat) : M unit :=
  j ← randbelow (i + 1);
  xj ← list_getitem x j;
  xi ← list_getitem x i;
  list_setitem x i xj;;
  list_setitem x j xi.

Definition random_shuffle (x : loc) : M unit :=
  xs ← list_read x;
  for_ (reverse (seq 1 (length xs - 1))) (shuffle_step x).

(** ** Decorator: playlists *)

(** A playlist object.  The attributes assigned once in [__init__] and never
    again ([name], [_playlist], [repeat_count]) are part of the handle; the
    mutable parts are references into the store: [songs] is the address of a
    list object, [cell] the address of an [AnalyticsDecorator]'s counters.
    Two handles with the same address share that state. *)
Inductive Playlist :=
| BasicPlaylist (name : string) (songs : loc)
| ShuffleDecorator (_playlist : Playlist)
| RepeatDecorator (_playlist : Playlist) (repeat_count : Z)
| AnalyticsDecorator (_playlist : Playlist) (cell : loc).

Definition stats_read (c : loc) : M stats :=
  w ← get_world; lift (w_stats w !! c).

Definition stats_write (c : loc) (s : stats) : M unit :=
  modify (λ w, set_stats (<[c := s]> (w_stats w)) w).

(** [BasicPlaylist(name)] *)
Definition new_BasicPlaylist (name : string) : M Playlist :=
  l ← list_alloc []; mret (BasicPlaylist name l).

(** [AnalyticsDecorator(playlist)] *)
Definition new_AnalyticsDecorator (playlist : Playlist) : M Playlist :=
  w ← get_world;
  modify (λ w, set_stats (w_stats w ++ [mkStats 0 0]) w);;
  mret (AnalyticsDecorator playlist (length (w_stats w))).

(** [add_song]: [BasicPlaylist] appends; every decorator inherits
    [PlaylistDecorator.add_song], which delegates. *)
Fixpoint add_song (p : Playlist) (song : Song) : M unit :=
  match p with
  | BasicPlaylist name songs =>
      list_append songs song;;
      print (MsgAdded (title song) name)
  | ShuffleDecorator q | RepeatDecorator q _ | AnalyticsDecorator q _ =>
      add_song q song
  end.

(** [get_songs]: [BasicPlaylist] returns [self.songs.copy()]; every
    decorator inherits [PlaylistDecorator.get_songs], which delegates. *)
Fixpoint get_songs (p : Playlist) : M loc :=
  match p with
  | BasicPlaylist _ songs => list_copy songs
  | ShuffleDecorator q | RepeatDecorator q _ | AnalyticsDecorator q _ =>
      get_songs q
  end.

(** The body shared by the two loops that play songs:
    [player.play(song); time.sleep(0.2)]. *)
Definition play_one (player : loc) (song : Song) : M unit :=
  MusicPlayer_play player song;; sleep (2 # 10).

(** [BasicPlaylist.play_all].  The loop body never touches a list object,
    so iterating over [self.songs] visits the items it holds on entry. *)
Definition BasicPlaylist_play_all (name : string) (songs : loc) : M unit :=
  print (MsgPlayingPlaylist name);;
  player ← MusicPlayer;
  xs ← list_read songs;
  for_ xs (play_one player).

(** [ShuffleDecorator.play_all]; [self_get_songs] is [self.get_songs()]. *)
Definition ShuffleDecorator_play_all (self_get_songs : M loc) : M unit :=
  print MsgShuffleEnabled;;
  songs ← self_get_songs;
  random_shuffle songs;;
  print MsgPlayingShuffled;;
  player ← MusicPlayer;
  xs ← list_read songs;
  for_ xs (play_one player).

(** [RepeatDecorator.play_all]; [inner_play_all] is
    [self._playlist.play_all()]. *)
Definition RepeatDecorator_play_all (inner_play_all : M unit) (repeat_count : Z) : M unit :=
  print (MsgRepeatEnabled repeat_count);;
  for_ (range repeat_count) (λ i,
    print (MsgRound (i + 1));;
    inner_play_all;;
    if decide (i < repeat_count - 1) then
      print MsgRepeating;;
      sleep (3 # 10)
    else mret tt).

(** [AnalyticsDecorator.play_all] *)
Definition AnalyticsDecorator_play_all (inner_play_all : M unit) (cell : loc) : M unit :=
  print MsgAnalyticsEnabled;;
  start_time ← time_time;
  inner_play_all;;
  s ← stats_read cell;
  stats_write cell (mkStats (play_count s + 1) (total_listening_time s));;
  now ← time_time;
  let duration := (now - start_time)%Q in
  s ← stats_read cell;
  stats_write cell (mkStats (play_count s) (total_listening_time s + duration)%Q);;
  s ← stats_read cell;
  print (MsgSessionComplete (play_count s)).

(** Dynamic dispatch of [play_all]. *)
Fixpoint play_all (p : Playlist) : M unit :=
  match p with
  | BasicPlaylist name songs => BasicPlaylist_play_all name songs
  | ShuffleDecorator q => ShuffleDecorator_play_all (get_songs (ShuffleDecorator q))
  | RepeatDecorator q n => RepeatDecorator_play_all (play_all q) n
  | AnalyticsDecorator q c => AnalyticsDecorator_play_all (play_all q) c
  end.

(** [sum(...)]: left to right from 0. *)
Definition py_sum (xs : list Z) : Z := foldl Z.add 0 xs.

(** [BasicPlaylist.get_info] *)
Definition BasicPlaylist_get_info (name : string) (songs : loc) : M string :=
  xs ← list_read songs;
  let total_duration := py_sum (duration <$> xs) in
  mret ("Playlist: " +:+ name +:+ " | Songs: " +:+ pretty (length xs)
        +:+ " | Duration: " +:+ pretty total_duration +:+ "s").

(** The integer nearest to [x], ties to the even one. *)
Definition round_half_even (x : Q) : Z :=
  let f := Qfloor x in
  match (x - inject_Z f ?= 1 # 2)%Q with
  | Lt => f
  | Gt => f + 1
  | Eq => if Z.even f then f else f + 1
  end.

(** *** Float arithmetic

    A Python float is a binary64 number: zero, or [m * 2 ^ e] with an
    integer [m] of at most 53 bits and [e] no less than -1074.  An
    operation on floats returns the float nearest to the exact result, ties
    to the even [m].  A float is kept as the rational it denotes, so the
    sign of a zero is not kept.  The results below never leave the range of
    the finite floats: a quotient by an integer is no larger than the
    dividend, and a float of [2 ^ 52] or more is already a whole number. *)

(** [floor (log2 q)], for a positive [q]. *)
Definition ilog2 (q : Q) : Z :=
  let e := Z.log2 (Qnum q) - Z.log2 (Zpos (Qden q)) in
  if Qle_bool (2 ^ e) q then e else e - 1.

(** The exponent of the last bit kept when [q] is rounded to 53 bits; below
    the normal range it stays at -1074. *)
Definition binary64_exponent (q : Q) : Z := Z.max (ilog2 (Qabs q) - 52) (-1074).

(** The float nearest to [q]. *)
Definition binary64 (q : Q) : Q :=
  if Qeq_bool q 0 then 0%Q else
  let e := binary64_exponent q in
  (inject_Z (round_half_even (q / 2 ^ e)) * 2 ^ e)%Q.

(** [round(x, 1)] on a float: the decimal nearest to the exact value of
    [x], ties to the even digit, then the float nearest to that decimal. *)
Definition py_round1 (x : Q) : Q :=
  binary64 (inject_Z (round_half_even (x * 10)) / 10).

(** An integer operand of a float operation is converted to the nearest
    float: OverflowError when that is out of range. *)
Definition int_to_float (b : Z) : M Q :=
  let f := binary64 (inject_Z b) in
  if Qle_bool (2 ^ 1024) (Qabs f) then raise else mret f.

(** [a / b] with an integer divisor: [b] is converted to a float,
    ZeroDivisionError when it is 0, and the quotient is rounded to a
    float.  In [get_analytics] the dividend is a float as soon as a play
    was counted; before that it is the integer 0, the divisor is 1 and the
    quotient is the float 0. *)
Definition py_truediv (a : Q) (b : Z) : M Q :=
  fb ← int_to_float b;
  if Qeq_bool fb 0 then raise else mret (binary64 (a / fb)).

(** The dictionary [get_analytics] returns. *)
Record analytics := mkAnalytics {
  a_play_count : Z;
  a_total_listening_time : Q;
  a_average_session_time : Q
}.

(** [AnalyticsDecorator.get_analytics] *)
Definition AnalyticsDecorator_get_analytics (cell : loc) : M analytics :=
  s ← stats_read cell;
  avg_session ← py_truediv (total_listening_time s) (Z.max 1 (play_count s));
  mret (mkAnalytics (play_count s)
                    (py_round1 (total_listening_time s))
                    (py_round1 avg_session)).

(** ** [get_info] through the decorators *)

(** [f"{x:.1f}"]: a minus sign for a negative value, the integer part, the
    point and one decimal, rounded with ties to the even digit. *)
Definition format_1f (x : Q) : string :=
  let tenths := Z.abs (round_half_even (x * 10)) in
  (match (x ?= 0)%Q with Lt => "-" | _ => "" end)
  +:+ pretty (tenths `div` 10) +:+ "." +:+ pretty (tenths `mod` 10).

(** [get_info]: [BasicPlaylist] builds the text; [ShuffleDecorator] and
    [RepeatDecorator] append their mark to the wrapped playlist's text;
    [AnalyticsDecorator] first formats its counters, then appends them to
    the wrapped playlist's text. *)
Fixpoint get_info (p : Playlist) : M string :=
  match p with
  | BasicPlaylist name songs => BasicPlaylist_get_info name songs
  | ShuffleDecorator q =>
      info ← get_info q;
      mret (info +:+ " | 🔀 Shuffle: ON")
  | RepeatDecorator q n =>
      info ← get_info q;
      mret (info +:+ " | 🔁 Repeat: " +:+ pretty n +:+ "x")
  | AnalyticsDecorator q c =>
      s ← stats_read c;
      let analytics := " | 📊 Plays: " +:+ pretty (play_count s) +:+ ", Total time: "
                       +:+ format_1f (total_listening_time s) +:+ "s" in
      info ← get_info q;
      mret (info +:+ analytics)
  end.

(** ** Strategy selection in [MusicStreamingSystem] *)

(** [self.strategies], built once in [__init__]. *)
Definition strategies : gmap string PlaybackStrategy :=
  {[ "mp3" := MP3Strategy; "flac" := FLACStrategy; "streaming" := StreamingStrategy ]}.

(** [d[k]]: KeyError when absent. *)
Definition dict_getitem (d : gmap string PlaybackStrategy) (k : string) : M PlaybackStrategy :=
  lift (d !! k).

(** [d.get(k, dflt)] *)
Definition dict_get (d : gmap string PlaybackStrategy) (k : string)
    (dflt : PlaybackStrategy) : PlaybackStrategy :=
  default dflt (d !! k).

(** [self.strategies.get(song.format_type, self.strategies['mp3'])]; the
    default argument is evaluated before the call. *)
Definition select_strategy (song : Song) : M PlaybackStrategy :=
  dflt ← dict_getitem strategies "mp3";
  mret (dict_get strategies (format_type song) dflt).

(** The world before the program has run: no object allocated. *)
Definition initial_world (rand : nat → nat) (clock : nat → Q) : world :=
  mkWorld None [] [] [] [] rand 0%nat clock 0%nat.

(** * Vocabulary of the statements *)

(** ** What the coordinator does *)

(** The attributes [__init__] assigns. *)
Definition init_attrs : player_attrs := mkPlayer None false 50 None.

(** [_instance], when set, refers to an allocated object. *)
Definition coordinator_ok (w : world) : Prop :=
  match w_instance w with
  | None => True
  | Some self => is_Some (w_players w !! self)
  end.

(** The result of the call [MusicPlayer()], case by case. *)
Definition access (w : world) : loc * world :=
  match w_instance w with
  | None =>
      let self := length (w_players w) in
      (self, set_out (w_out w ++ [Print MsgPlayerInitialized])
               (set_instance (Some self)
                  (set_players (w_players w ++ [Ready init_attrs]) w)))
  | Some self =>
      match w_players w !! self with
      | Some (Ready _) => (self, w)
      | _ => (self, set_out (w_out w ++ [Print MsgPlayerInitialized])
                      (set_players (<[self := Ready init_attrs]> (w_players w)) w))
      end
  end.

(** The attributes the coordinator has once obtained in [w]. *)
Definition coordinator_attrs (w : world) : player_attrs :=
  match w_instance w with
  | None => init_attrs
  | Some self =>
      match w_players w !! self with
      | Some (Ready a) => a
      | _ => init_attrs
      end
  end.

(** What obtaining the coordinator in [w] prints. *)
Definition coordinator_events (w : world) : list event :=
  match w_instance w with
  | None => [Print MsgPlayerInitialized]
  | Some self =>
      match w_players w !! self with
      | Some (Ready a) => []
      | _ => [Print MsgPlayerInitialized]
      end
  end.

Definition strategy_delay (s : PlaybackStrategy) : Q :=
  match s with
  | MP3Strategy => 5 # 10
  | FLACStrategy => 1
  | StreamingStrategy => 3 # 10
  end.

(** What a strategy's [play] writes for a song. *)
Definition strategy_events (s : PlaybackStrategy) (song : Song) : list event :=
  [Print (MsgPlaying s (title song) (artist song)); Print (MsgDecoder s);
   Sleep (strategy_delay s)].

(** What [MusicPlayer.play] writes for a song under the strategy [st]. *)
Definition play_events (st : option PlaybackStrategy) (song : Song) : list event :=
  match st with
  | None => [Print MsgNoStrategy]
  | Some s => strategy_events s song
  end.

(** The player's attributes after [play song]. *)
Definition played (song : Song) (a : player_attrs) : player_attrs :=
  match playback_strategy a with
  | None => a
  | Some _ => mkPlayer (Some song) true (volume a) (playback_strategy a)
  end.

(** What one round of the playing loops writes for a song. *)
Definition play_one_events (st : option PlaybackStrategy) (song : Song) : list event :=
  play_events st song ++ [Sleep (2 # 10)].

(** The player's attributes after playing the songs [xs] in order. *)
Definition played_all (xs : list Song) (a : player_attrs) : player_attrs :=
  foldl (λ a song, played song a) a xs.

(** The world once the coordinator, obtained in [w], has played [xs]. *)
Definition after_playing (xs : list Song) (w : world) : world :=
  set_out (w_out (access w).2
             ++ concat (play_one_events (playback_strategy (coordinator_attrs w)) <$> xs))
    (set_players (<[(access w).1 := Ready (played_all xs (coordinator_attrs w))]>
                    (w_players (access w).2))
       (access w).2).

(** Every method of the coordinator rewrites its attributes in place and
    appends to the log; none allocates, none touches [_instance]. *)
Definition in_place (self : loc) (w w' : world) : Prop :=
  ∃ a' evs, w' = set_out (w_out w ++ evs)
                   (set_players (<[self := Ready a']> (w_players w)) w).

(** ** Call sites *)

(** A call site obtains the coordinator with [MusicPlayer()] and, unless it
    is a bare [Access], invokes one method on what it obtained. *)
Inductive call :=
| Access
| SetStrategy (s : PlaybackStrategy)
| Play (song : Song)
| Pause
| Stop
| SetVolume (v : Z).

Definition invoke (player : loc) (c : call) : M unit :=
  match c with
  | Access => mret tt
  | SetStrategy s => MusicPlayer_set_playback_strategy player s
  | Play song => MusicPlayer_play player song
  | Pause => MusicPlayer_pause player
  | Stop => MusicPlayer_stop player
  | SetVolume v => MusicPlayer_set_volume player v
  end.

Definition call_site (c : call) : M loc :=
  player ← MusicPlayer; invoke player c;; mret player.

(** The call sites in program order, with the instance each one obtained. *)
Fixpoint call_sites (cs : list call) : M (list loc) :=
  match cs with
  | [] => mret []
  | c :: rest => p ← call_site c; ps ← call_sites rest; mret (p :: ps)
  end.

(** ** The specification's own definitions *)

(** The clamp of the specification, by cases. *)
Definition clamp (v lo hi : Z) : Z :=
  if v <? lo then lo else if hi <? v then hi else v.

(** The sum of a list of integers, by recursion on the list. *)
Fixpoint total (xs : list Z) : Z :=
  match xs with
  | [] => 0
  | x :: rest => x + total rest
  end.

(** The pause between two passes. *)
Definition repeat_pause : M unit := print MsgRepeating;; sleep (3 # 10).

(** The specification's reading of repetition: [k] passes of [inner], one
    after the other, the first announced as [round]; a pause follows every
    pass that has a successor, and nothing follows the last. *)
Fixpoint passes (inner : M unit) (k : nat) (round : Z) : M unit :=
  match k with
  | O => mret tt
  | S k' =>
      print (MsgRound round);;
      inner;;
      match k' with
      | O => mret tt
      | S _ => repeat_pause;; passes inner k' (round + 1)
      end
  end.

(** ** Playlists in the store *)

(** The address of the list object of the base playlist under [p]. *)
Fixpoint base_songs (p : Playlist) : loc :=
  match p with
  | BasicPlaylist _ songs => songs
  | ShuffleDecorator q | RepeatDecorator q _ | AnalyticsDecorator q _ => base_songs q
  end.

(** The world in which a [ShuffleDecorator] over the songs [xs] turns to the
    coordinator: the shuffled copy [ys] is the newest list. *)
Definition shuffled_world (xs ys : list Song) (w : world) : world :=
  set_out (w_out w ++ [Print MsgShuffleEnabled; Print MsgPlayingShuffled])
    (set_rand_pos (w_rand_pos w + (length xs - 1))
       (set_lists (w_lists w ++ [ys]) w)).

(** Every address in the handle [p] is allocated in [w]. *)
Fixpoint valid (w : world) (p : Playlist) : Prop :=
  match p with
  | BasicPlaylist _ songs => is_Some (w_lists w !! songs)
  | ShuffleDecorator q | RepeatDecorator q _ => valid w q
  | AnalyticsDecorator q c => is_Some (w_stats w !! c) ∧ valid w q
  end.

(** The counters of the [AnalyticsDecorator]s in [p], outermost first. *)
Fixpoint cells (p : Playlist) : list loc :=
  match p with
  | BasicPlaylist _ _ => []
  | ShuffleDecorator q | RepeatDecorator q _ => cells q
  | AnalyticsDecorator q c => c :: cells q
  end.

(** From [w] to [w']: lists were only added, no counters allocated, the
    counters outside [F] kept their values, and the coordinator is in
    order. *)
Definition grows (F : list loc) (w w' : world) : Prop :=
  (∃ new, w_lists w' = w_lists w ++ new)
  ∧ length (w_stats w') = length (w_stats w)
  ∧ (∀ c, c ∉ F → w_stats w' !! c = w_stats w !! c)
  ∧ coordinator_ok w'.

(** The world [AnalyticsDecorator.play_all] leaves, given the clock reading
    [start] it took first, and the world [w1] and the counters [s1] it
    found when the wrapped [play_all] returned. *)
Definition analytics_finish (c : loc) (start : Q) (s1 : stats) (w1 : world) : world :=
  let now := w_clock w1 (w_clock_pos w1) in
  let s2 := mkStats (play_count s1 + 1)
                    (total_listening_time s1 + (now - start))%Q in
  set_out (w_out w1 ++ [Print (MsgSessionComplete (play_count s1 + 1))])
    (set_stats (<[c := s2]> (w_stats w1))
       (set_clock_pos (S (w_clock_pos w1)) w1)).

(** In [w] the playlist [q] is well formed, the coordinator is in order and
    the counter at [c] stands at [k]. *)
Definition counted (q : Playlist) (c : loc) (k : Z) (w : world) : Prop :=
  valid w q ∧ coordinator_ok w ∧ ∃ t, w_stats w !! c = Some (mkStats k t).

(** ** Sample data *)

Definition song_a : Song := mkSong "Test Song 1" "Test Artist" 180 "mp3".
Definition song_b : Song := mkSong "Test Song 2" "Another Artist" 200 "mp3".

(** A world in which a playlist's list, at address 0, holds the two songs
    of [main], and nothing else is allocated. *)
Definition two_songs_world : world :=
  mkWorld None [] [[song_a; song_b]] [] [] (λ k, k) 0%nat (λ _, 0%Q) 0%nat.

(** Clock readings for three sessions: 0 to 1/2, 1/2 to 1, 1 to 2. *)
Definition session_clock (k : nat) : Q :=
  match k with
  | 0%nat => 0
  | 1%nat | 2%nat => 1 # 2
  | 3%nat | 4%nat => 1
  | _ => 2
  end.

(** The two songs of [main] in a playlist at address 0, and the counters of
    a newly built [AnalyticsDecorator] at address 0. *)
Definition analytics_world : world :=
  mkWorld None [] [[song_a; song_b]] [mkStats 0 0] [] (λ k, k) 0%nat session_clock 0%nat.

Definition tracked_favorites : Playlist :=
  AnalyticsDecorator (BasicPlaylist "My Favorites" 0%nat) 0%nat.

(** The counters of an [AnalyticsDecorator] after five plays that took 3/4
    of a second in all. *)
Definition five_plays_world : world :=
  mkWorld None [] [[song_a; song_b]] [mkStats 5 (3 # 4)] [] (λ k, k) 0%nat (λ _, 0%Q) 0%nat.

(** ** What the coordinator's methods do to its attributes *)

(** The player's attributes after the method a call site invokes. *)
Definition apply_call (c : call) (a : player_attrs) : player_attrs :=
  match c with
  | Access => a
  | SetStrategy s => with_playback_strategy (Some s) a
  | Play song => played song a
  | Pause => if is_playing a then with_is_playing false a else a
  | Stop => with_current_song None (with_is_playing false a)
  | SetVolume v => with_volume (Z.max 0 (Z.min 100 v)) a
  end.

(** The text [get_status] builds from the attributes [a]. *)
Definition status_text (a : player_attrs) : string :=
  "Status: " +:+ (if is_playing a then "Playing" else "Stopped")
  +:+ " | Song: " +:+ from_option title "None" (current_song a)
  +:+ " | Volume: " +:+ pretty (volume a).

(** A world whose coordinator is playing the first sample song with the MP3
    strategy at volume 75. *)
Definition playing_world : world :=
  mkWorld (Some 0%nat) [Ready (mkPlayer (Some song_a) true 75 (Some MP3Strategy))]
          [] [] [] (λ k, k) 0%nat (λ _, 0%Q) 0%nat.

(** The name of the base playlist under [p]. *)
Fixpoint base_name (p : Playlist) : string :=
  match p with
  | BasicPlaylist name _ => name
  | ShuffleDecorator q | RepeatDecorator q _ | AnalyticsDecorator q _ => base_name q
  end.

(** From [w] to [w']: the log was only appended to; the clock and the random
    source are the same, and were only read further. *)
Definition later (w w' : world) : Prop :=
  (∃ evs, w_out w' = w_out w ++ evs)
  ∧ w_clock w' = w_clock w ∧ (w_clock_pos w ≤ w_clock_pos w')%nat
  ∧ w_rand w' = w_rand w ∧ (w_rand_pos w ≤ w_rand_pos w')%nat.

(** The text [BasicPlaylist.get_info] builds for the name [name] and the
    songs [xs]. *)
Definition basic_info (name : string) (xs : list Song) : string :=
  "Playlist: " +:+ name +:+ " | Songs: " +:+ pretty (length xs)
  +:+ " | Duration: " +:+ pretty (total (duration <$> xs)) +:+ "s".

(** Entries of the log: the banner of a base playlist, the notice between
    two passes of a repetition, the pause after a song. *)
Definition is_banner (e : event) : bool :=
  match e with Print (MsgPlayingPlaylist _) => true | _ => false end.
Definition is_repeat_notice (e : event) : bool :=
  match e with Print MsgRepeating => true | _ => false end.
Definition is_song_pause (e : event) : bool :=
  match e with Sleep d => Qeq_bool d (2 # 10) | _ => false end.

(** How many entries of [evs] satisfy [f]. *)
Definition count_events (f : event → bool) (evs : list event) : nat :=
  length (List.filter f evs).

(** ** Rounding *)

(** [k] is an integer nearest to [x], the even one when two are as near. *)
Definition nearest_even (x : Q) (k : Z) : Prop :=
  (Qabs (inject_Z k - x) <= 1 # 2)%Q
  ∧ ((Qabs (inject_Z k - x) == 1 # 2)%Q → Z.even k = true).

(** [y] is the binary64 number nearest to [x]: [y] is [m * 2 ^ e], where
    [2 ^ e] is the weight of the last of the 53 bits of a number the size of
    [x], never below [2 ^ -1074], and [m] is the integer nearest to
    [x / 2 ^ e], ties to even. *)
Definition nearest_binary64 (x y : Q) : Prop :=
  ∃ m e : Z,
    (y == inject_Z m * 2 ^ e)%Q
    ∧ -1074 ≤ e
    ∧ (Qabs x < 2 ^ (e + 53))%Q
    ∧ (-1074 < e → (2 ^ (e + 52) <= Qabs x)%Q)
    ∧ nearest_even (x / 2 ^ e) m.

(** [y] is the float [round(x, 1)] gives: the float nearest to [k / 10],
    where [k] tenths are nearest to [x], ties to even. *)
Definition rounded_to_tenth (x y : Q) : Prop :=
  ∃ k : Z, nearest_even (x * 10) k ∧ nearest_binary64 (inject_Z k / 10) y.

(** The same division in the standard library's specification of IEEE 754:
    the binary64 float of value [m * 2 ^ e], the rational a finite float
    denotes, and the float quotient of [m * 2 ^ e] by the integer [b]. *)
Definition to_float (m e : Z) : SpecFloat.spec_float :=
  SpecFloat.binary_normalize 53 1024 m e false.

Definition float_value (f : SpecFloat.spec_float) : Q :=
  match f with
  | SpecFloat.S754_finite s m e => ((if s then -1 else 1) * inject_Z (Zpos m) * 2 ^ e)%Q
  | _ => 0%Q
  end.

Definition ieee_quotient (m e b : Z) : Q :=
  float_value (SpecFloat.SFdiv 53 1024 (to_float m e) (to_float b 0)).

(** Dividends [m * 2 ^ e] and divisors [b]: 0.75 / 5, 2 / 3, 1 / 10, a
    negative and a large dividend, a divisor above [2 ^ 53], quotients with
    a tie, and quotients below the normal range. *)
Definition division_samples : list (Z * Z * Z) :=
  [(3, -2, 5); (2, 0, 3); (1, 0, 10); (7, 0, 10); (-1, -2, 3); (0, 0, 7);
   (6004799503160661, -54, 7); (123456789, 10, 1000); (1, 0, 2 ^ 60 + 1);
   (2 ^ 54 + 2, 0, 4); (2 ^ 54 + 6, 0, 4); (9007199254740993, -30, 3);
   (1, -1070, 3); (5, -1074, 2); (3, -1074, 2); (1, -1074, 2); (1, -1074, 3);
   (8704151279671304, -1003, 3092502357788276706707)].

(** * Properties *)

(** ** Running computations *)

Lemma run_bind {A B} (m : M A) (k : A → M B) w :
  (m ≫= k) w = match m w with Some (x, w') => k x w' | None => None end.
Proof. reflexivity. Qed.

Lemma run_bind_Some {A B} (m : M A) (k : A → M B) w x w' :
  m w = Some (x, w') → (m ≫= k) w = k x w'.
Proof. intros H. rewrite run_bind, H. reflexivity. Qed.

(** Run the first computation of a sequence, given its result. *)
Tactic Notation "run_step" open_constr(H) := rewrite (run_bind_Some _ _ _ _ _ H).

Lemma run_for_cons {A} (x : A) xs (body : A → M unit) w :
  for_ (x :: xs) body w =
  match body x w with Some (_, w') => for_ xs body w' | None => None end.
Proof. reflexivity. Qed.

Lemma run_player_get w self a :
  w_players w !! self = Some (Ready a) → player_get self w = Some (a, w).
Proof.
  intros H. unfold player_get, player_obj, get_world.
  rewrite !run_bind. cbn. rewrite H. reflexivity.
Qed.

Lemma run_player_update w self a f :
  w_players w !! self = Some (Ready a) →
  player_update self f w =
  Some (tt, set_players (<[self := Ready (f a)]> (w_players w)) w).
Proof.
  intros H. unfold player_update.
  run_step (run_player_get _ _ _ H). reflexivity.
Qed.

Lemma players_insert_lookup (ps : list MusicPlayer_obj) self o o' :
  ps !! self = Some o → <[self := o']> ps !! self = Some o'.
Proof. intros H. apply list_lookup_insert_eq. by eapply lookup_lt_Some. Qed.

(** ** Volume *)

Lemma max_min_clamp v : Z.max 0 (Z.min 100 v) = clamp v 0 100.
Proof. unfold clamp. repeat case_match; lia. Qed.

Lemma run_set_volume w self a v :
  w_players w !! self = Some (Ready a) →
  MusicPlayer_set_volume self v w =
    Some (tt, set_out (w_out w ++ [Print (MsgVolume (clamp v 0 100))])
                (set_players (<[self := Ready (with_volume (clamp v 0 100) a)]> (w_players w)) w)).
Proof.
  intros H. unfold MusicPlayer_set_volume.
  run_step (run_player_update _ _ _ _ H).
  rewrite max_min_clamp.
  set (w1 := set_players _ w).
  assert (Hg : player_get self w1 = Some (with_volume (clamp v 0 100) a, w1)).
  { apply run_player_get. cbn. by eapply players_insert_lookup. }
  run_step Hg. reflexivity.
Qed.

(** C6: on an initialised player, [set_volume v] never raises and stores
    [clamp v 0 100] as the volume, changing no other attribute: 0 below the
    range, 100 above it, [v] itself inside (-5 gives 0, 150 gives 100, 42
    gives 42). *)
Theorem set_volume_clamps w self a v :
  w_players w !! self = Some (Ready a) →
  MusicPlayer_set_volume self v w =
    Some (tt, set_out (w_out w ++ [Print (MsgVolume (clamp v 0 100))])
                (set_players (<[self := Ready (with_volume (clamp v 0 100) a)]> (w_players w)) w))
  ∧ (v < 0 → clamp v 0 100 = 0)
  ∧ (100 < v → clamp v 0 100 = 100)
  ∧ (0 ≤ v ≤ 100 → clamp v 0 100 = v)
  ∧ clamp (-5) 0 100 = 0 ∧ clamp 150 0 100 = 100 ∧ clamp 42 0 100 = 42.
Proof.
  intros H. split; [by apply run_set_volume|].
  unfold clamp; repeat split; intros; repeat case_match; lia.
Qed.

Lemma set_volume_clamps_witness :
  MusicPlayer_set_volume 0%nat 150
    (mkWorld (Some 0%nat) [Ready (mkPlayer None false 50 None)] [] [] []
             (λ _, 0%nat) 0%nat (λ _, 0%Q) 0%nat)
  = Some (tt, mkWorld (Some 0%nat) [Ready (mkPlayer None false 100 None)] [] []
                      [Print (MsgVolume 100)] (λ _, 0%nat) 0%nat (λ _, 0%Q) 0%nat).
Proof.
  exact (proj1 (set_volume_clamps
    (mkWorld (Some 0%nat) [Ready (mkPlayer None false 50 None)] [] [] []
             (λ _, 0%nat) 0%nat (λ _, 0%Q) 0%nat) 0%nat
    (mkPlayer None false 50 None) 150 eq_refl)).
Defined.

(** ** The coordinator's [play] *)

Lemma run_strategy_play s song w :
  PlaybackStrategy_play s song w =
  Some (tt, set_out (w_out w ++ strategy_events s song) w).
Proof.
  destruct s; cbn [PlaybackStrategy_play];
    unfold MP3Strategy_play, FLACStrategy_play, StreamingStrategy_play,
      print, sleep, modify, mbind, M_bind, set_out; cbn;
    rewrite <- !app_assoc; reflexivity.
Qed.

Lemma played_strategy song a : playback_strategy (played song a) = playback_strategy a.
Proof. unfold played. by destruct (playback_strategy a) eqn:E. Qed.

Lemma run_play w self a song :
  w_players w !! self = Some (Ready a) →
  MusicPlayer_play self song w =
  Some (tt, set_out (w_out w ++ play_events (playback_strategy a) song)
              (set_players (<[self := Ready (played song a)]> (w_players w)) w)).
Proof.
  intros H. unfold MusicPlayer_play, played.
  run_step (run_player_get _ _ _ H).
  destruct (playback_strategy a) as [s|] eqn:Hs.
  - run_step (run_player_update _ _ _ _ H).
    set (w1 := set_players _ w).
    assert (H1 : w_players w1 !! self = Some (Ready (with_current_song (Some song) a))).
    { cbn. by eapply players_insert_lookup. }
    run_step (run_player_update _ _ _ _ H1).
    set (w2 := set_players _ w1).
    assert (H2 : w_players w2 !! self =
                 Some (Ready (with_is_playing true (with_current_song (Some song) a)))).
    { cbn. rewrite list_insert_insert_eq. by eapply players_insert_lookup. }
    run_step (run_player_get _ _ _ H2).
    cbn [playback_strategy with_is_playing with_current_song]. rewrite Hs.
    change (lift (Some s)) with (mret (M := M) s).
    rewrite run_bind. cbn [mret M_ret]. rewrite run_strategy_play.
    subst w2 w1. cbn. rewrite list_insert_insert_eq.
    unfold with_is_playing, with_current_song. cbn. rewrite Hs. reflexivity.
  - rewrite (list_insert_id _ _ _ H). reflexivity.
Qed.

(** C4: on the coordinator [self] with attributes [a], [play song] never
    raises.  With no strategy set it only prints the failure message: the
    stored objects, the attributes of the player among them, stay as they
    were.  With a strategy [s] it sets [current_song] to the song and
    [is_playing] to true, keeps volume and strategy, and runs the output of
    [s.play(song)]. *)
Theorem play_requires_strategy w self a song :
  w_players w !! self = Some (Ready a) →
  (playback_strategy a = None →
     MusicPlayer_play self song w =
       Some (tt, set_out (w_out w ++ [Print MsgNoStrategy]) w))
  ∧ (∀ s, playback_strategy a = Some s →
       MusicPlayer_play self song w =
         PlaybackStrategy_play s song
           (set_players (<[self := Ready (mkPlayer (Some song) true (volume a) (Some s))]>
                           (w_players w)) w)
       ∧ MusicPlayer_play self song w =
           Some (tt, set_out (w_out w ++ strategy_events s song)
                       (set_players (<[self := Ready (mkPlayer (Some song) true (volume a) (Some s))]>
                                       (w_players w)) w))).
Proof.
  intros H. split.
  - intros Hs. rewrite (run_play _ _ _ _ H). unfold played. rewrite Hs. cbn.
    rewrite (list_insert_id _ _ _ H). reflexivity.
  - intros s Hs. rewrite run_strategy_play, (run_play _ _ _ _ H).
    unfold played. rewrite Hs. done.
Qed.

Lemma play_requires_strategy_witness :
  MusicPlayer_play 0%nat (mkSong "Imagine" "John Lennon" 183 "flac")
    (mkWorld (Some 0%nat) [Ready (mkPlayer None false 50 None)] [] [] []
             (λ _, 0%nat) 0%nat (λ _, 0%Q) 0%nat)
  = Some (tt, mkWorld (Some 0%nat) [Ready (mkPlayer None false 50 None)] [] []
                      [Print MsgNoStrategy] (λ _, 0%nat) 0%nat (λ _, 0%Q) 0%nat).
Proof.
  exact (proj1 (play_requires_strategy
    (mkWorld (Some 0%nat) [Ready (mkPlayer None false 50 None)] [] [] []
             (λ _, 0%nat) 0%nat (λ _, 0%Q) 0%nat) 0%nat
    (mkPlayer None false 50 None) (mkSong "Imagine" "John Lennon" 183 "flac")
    eq_refl) eq_refl).
Defined.

(** ** The singleton *)

Lemma insert_snoc {A} (l : list A) (x y : A) : <[length l := y]> (l ++ [x]) = l ++ [y].
Proof.
  replace (length l) with (length l + 0)%nat by lia.
  by rewrite insert_app_r.
Qed.

Lemma run_MusicPlayer w :
  coordinator_ok w → MusicPlayer w = Some ((access w).1, (access w).2).
Proof.
  rewrite <- surjective_pairing.
  unfold coordinator_ok, MusicPlayer, MusicPlayer_new, MusicPlayer_init, access,
    player_obj, player_put, print, modify, get_world.
  unfold mbind, M_bind, mret, M_ret. cbn.
  destruct (w_instance w) as [self|] eqn:Hi; cbn.
  - intros [o Ho]. rewrite Ho. cbn. destruct o; reflexivity.
  - intros _. rewrite Hi. cbn. rewrite lookup_app_r, Nat.sub_diag by lia. cbn.
    rewrite insert_snoc. reflexivity.
Qed.

Lemma access_spec w :
  coordinator_ok w →
  w_instance (access w).2 = Some (access w).1
  ∧ w_players (access w).2 !! (access w).1 = Some (Ready (coordinator_attrs w))
  ∧ w_out (access w).2 = w_out w ++ coordinator_events w
  ∧ w_lists (access w).2 = w_lists w
  ∧ w_stats (access w).2 = w_stats w
  ∧ w_rand (access w).2 = w_rand w
  ∧ w_rand_pos (access w).2 = w_rand_pos w
  ∧ w_clock (access w).2 = w_clock w
  ∧ w_clock_pos (access w).2 = w_clock_pos w.
Proof.
  unfold coordinator_ok, access, coordinator_attrs, coordinator_events.
  destruct (w_instance w) as [self|] eqn:Hi.
  - intros [o Ho]. rewrite Ho. destruct o as [|a]; cbn.
    + rewrite Hi, (players_insert_lookup _ _ _ _ Ho). done.
    + rewrite Hi, Ho, app_nil_r. done.
  - intros _. cbn. rewrite lookup_app_r, Nat.sub_diag by lia. done.
Qed.

(** Once set, [_instance] is what every later access returns, and no object
    is allocated. *)
Lemma access_again w self :
  w_instance w = Some self →
  (access w).1 = self ∧ w_instance (access w).2 = Some self
  ∧ length (w_players (access w).2) = length (w_players w).
Proof.
  intros Hi. unfold access. rewrite Hi.
  destruct (w_players w !! self) as [[|a]|]; cbn; rewrite ?length_insert; done.
Qed.

Lemma access_first w :
  w_instance w = None →
  length (w_players (access w).2) = S (length (w_players w)).
Proof.
  intros Hi. unfold access. rewrite Hi. cbn. rewrite length_app. cbn. lia.
Qed.

Lemma in_place_id w self a : w_players w !! self = Some (Ready a) → in_place self w w.
Proof.
  intros H. exists a, []. rewrite (list_insert_id _ _ _ H), app_nil_r.
  by destruct w.
Qed.

Lemma in_place_trans w1 w2 w3 self :
  in_place self w1 w2 → in_place self w2 w3 → in_place self w1 w3.
Proof.
  intros (a2 & e2 & ->) (a3 & e3 & ->). exists a3, (e2 ++ e3). cbn.
  rewrite list_insert_insert_eq, app_assoc. reflexivity.
Qed.

Lemma update_in_place w self a f :
  w_players w !! self = Some (Ready a) →
  ∃ w', player_update self f w = Some (tt, w') ∧ in_place self w w'
        ∧ w_players w' !! self = Some (Ready (f a)).
Proof.
  intros H. eexists. split; [by apply run_player_update|]. split.
  - exists (f a), []. rewrite app_nil_r. by destruct w.
  - cbn. by eapply players_insert_lookup.
Qed.

Lemma print_in_place w self a m :
  w_players w !! self = Some (Ready a) →
  in_place self w (set_out (w_out w ++ [Print m]) w).
Proof.
  intros H. exists a, [Print m]. by rewrite (list_insert_id _ _ _ H).
Qed.

Lemma invoke_in_place w self a c :
  w_players w !! self = Some (Ready a) →
  ∃ w', invoke self c w = Some (tt, w') ∧ in_place self w w'.
Proof.
  intros H. destruct c as [|s|song| | |v]; cbn [invoke].
  - eexists. split; [reflexivity|]. by eapply in_place_id.
  - destruct (update_in_place w self a (with_playback_strategy (Some s)) H)
      as (w' & Hr & Hp & _). eauto.
  - eexists. split; [by apply run_play|]. by eexists _, _.
  - unfold MusicPlayer_pause.
    run_step (run_player_get _ _ _ H).
    destruct (is_playing a).
    + destruct (update_in_place w self a (with_is_playing false) H)
        as (w1 & Hr & Hp & H1).
      run_step Hr. run_step (run_player_get _ _ _ H1).
      eexists. split; [reflexivity|].
      eapply in_place_trans; [done|]. by eapply print_in_place.
    + eexists. split; [reflexivity|]. by eapply in_place_id.
  - unfold MusicPlayer_stop.
    destruct (update_in_place w self a (with_is_playing false) H)
      as (w1 & Hr1 & Hp1 & H1).
    destruct (update_in_place w1 self _ (with_current_song None) H1)
      as (w2 & Hr2 & Hp2 & H2).
    run_step Hr1. run_step Hr2.
    eexists. split; [reflexivity|].
    eapply in_place_trans; [done|]. eapply in_place_trans; [done|].
    by eapply print_in_place.
  - eexists. split; [by apply run_set_volume|]. by eexists _, _.
Qed.

Lemma call_site_once_set w self c :
  w_instance w = Some self → coordinator_ok w →
  ∃ w', call_site c w = Some (self, w') ∧ w_instance w' = Some self
        ∧ length (w_players w') = length (w_players w) ∧ coordinator_ok w'.
Proof.
  intros Hi Hok. unfold call_site.
  run_step (run_MusicPlayer _ Hok).
  destruct (access_spec w Hok) as (_ & Hp & _).
  destruct (access_again w self Hi) as (Hs & Hi' & Hlen).
  destruct (invoke_in_place _ _ _ c Hp) as (w' & Hr & (a' & evs & ->)).
  run_step Hr. rewrite Hs. eexists. split; [reflexivity|].
  unfold coordinator_ok. cbn. rewrite Hi', length_insert.
  split_and!; [done..|].
  apply lookup_lt_is_Some. rewrite length_insert, Hlen.
  apply lookup_lt_is_Some. unfold coordinator_ok in Hok. by rewrite Hi in Hok.
Qed.

Lemma call_sites_once_set cs w self :
  w_instance w = Some self → coordinator_ok w →
  ∃ w', call_sites cs w = Some (replicate (length cs) self, w')
        ∧ w_instance w' = Some self
        ∧ length (w_players w') = length (w_players w).
Proof.
  revert w. induction cs as [|c cs IH]; intros w Hi Hok.
  - by exists w.
  - destruct (call_site_once_set w self c Hi Hok) as (w1 & Hr & Hi1 & Hl1 & Hok1).
    destruct (IH w1 Hi1 Hok1) as (w' & Hr' & Hi' & Hl').
    exists w'. cbn [call_sites].
    run_step Hr. run_step Hr'.
    split; [reflexivity|]. split; [done|]. congruence.
Qed.

Lemma call_site_ok w c :
  coordinator_ok w →
  ∃ w', call_site c w = Some ((access w).1, w')
        ∧ w_instance w' = Some (access w).1
        ∧ length (w_players w') = length (w_players (access w).2)
        ∧ coordinator_ok w'.
Proof.
  intros Hok. unfold call_site.
  run_step (run_MusicPlayer _ Hok).
  destruct (access_spec w Hok) as (Hi & Hp & _).
  destruct (invoke_in_place _ _ _ c Hp) as (w' & Hr & (a' & evs & ->)).
  run_step Hr. eexists. split; [reflexivity|].
  unfold coordinator_ok. cbn. rewrite Hi, length_insert.
  split_and!; [done..|].
  apply lookup_lt_is_Some. rewrite length_insert. by eapply lookup_lt_Some.
Qed.

(** C5: run any sequence of call sites from any world in which [_instance]
    is unset or refers to an allocated object (the initial world is one).
    Every call site obtains an instance; any two of the instances obtained
    are the same object, and it is the one [_instance] holds afterwards.
    Over the whole run at most one [MusicPlayer] object is allocated, and
    none when [_instance] was already set. *)
Theorem singleton_instance (cs : list call) (w : world) :
  coordinator_ok w →
  ∃ ps w', call_sites cs w = Some (ps, w')
    ∧ length ps = length cs
    ∧ (∀ p q, p ∈ ps → q ∈ ps → p = q)
    ∧ (∀ p, p ∈ ps → w_instance w' = Some p)
    ∧ (length (w_players w') ≤ S (length (w_players w)))%nat
    ∧ (is_Some (w_instance w) → length (w_players w') = length (w_players w)).
Proof.
  intros Hok. destruct cs as [|c cs].
  { exists [], w. split; [done|]. split; [done|].
    split; [by intros p q Hp%elem_of_nil|]. split; [by intros p Hp%elem_of_nil|].
    split; [lia|done]. }
  destruct (call_site_ok w c Hok) as (w1 & Hr1 & Hi1 & Hl1 & Hok1).
  destruct (call_sites_once_set cs w1 _ Hi1 Hok1) as (w' & Hr' & Hi' & Hl').
  exists ((access w).1 :: replicate (length cs) (access w).1), w'.
  cbn [call_sites].
  run_step Hr1. run_step Hr'.
  assert (Hall : ∀ p, p ∈ (access w).1 :: replicate (length cs) (access w).1 →
                      p = (access w).1).
  { intros p [->|[-> _]%elem_of_replicate]%elem_of_cons; done. }
  split; [reflexivity|]. split; [cbn; by rewrite length_replicate|].
  split; [intros p q Hp Hq; by rewrite (Hall p Hp), (Hall q Hq)|].
  split; [intros p Hp; by rewrite (Hall p Hp)|].
  rewrite Hl', Hl1.
  destruct (w_instance w) as [self|] eqn:Hi.
  - destruct (access_again w self Hi) as (_ & _ & ->). split; [lia|done].
  - rewrite (access_first w Hi). split; [lia|]. by intros [? ?].
Qed.

(** The three accesses of [demonstrate_singleton], then [set_volume(75)]
    through the first: one object, obtained three times. *)
Lemma singleton_instance_witness :
  ∃ ps w', call_sites [Access; Access; Access; SetVolume 75]
             (initial_world (λ _, 0%nat) (λ _, 0%Q)) = Some (ps, w')
    ∧ length ps = 4%nat
    ∧ (∀ p q, p ∈ ps → q ∈ ps → p = q)
    ∧ (∀ p, p ∈ ps → w_instance w' = Some p)
    ∧ (length (w_players w') ≤ 1)%nat
    ∧ (is_Some (@None loc) → length (w_players w') = 0%nat).
Proof.
  exact (singleton_instance [Access; Access; Access; SetVolume 75]
           (initial_world (λ _, 0%nat) (λ _, 0%Q)) I).
Defined.

(** ** Strategy selection *)

Lemma strategies_lookup_mp3 : strategies !! "mp3" = Some MP3Strategy.
Proof. reflexivity. Qed.

Lemma strategies_lookup_unknown (tag : string) :
  tag ≠ "mp3" → tag ≠ "flac" → tag ≠ "streaming" → strategies !! tag = None.
Proof.
  intros H1 H2 H3. unfold strategies.
  rewrite !lookup_insert_ne by done. by apply lookup_singleton_ne.
Qed.

Lemma select_strategy_known :
  ∀ w t a d,
    select_strategy (mkSong t a d "mp3") w = Some (MP3Strategy, w)
    ∧ select_strategy (mkSong t a d "flac") w = Some (FLACStrategy, w)
    ∧ select_strategy (mkSong t a d "streaming") w = Some (StreamingStrategy, w).
Proof. done. Qed.

(** C9: for a song whose format tag is none of "mp3", "flac" and
    "streaming", the lookup raises nothing and selects the MP3 strategy, the
    value stored under "mp3". *)
Theorem unknown_format_selects_mp3 (song : Song) (w : world) :
  format_type song ≠ "mp3" →
  format_type song ≠ "flac" →
  format_type song ≠ "streaming" →
  select_strategy song w = Some (MP3Strategy, w)
  ∧ strategies !! "mp3" = Some MP3Strategy.
Proof.
  intros H1 H2 H3. split; [|reflexivity].
  unfold select_strategy, dict_getitem, dict_get.
  rewrite strategies_lookup_mp3, (strategies_lookup_unknown _ H1 H2 H3).
  reflexivity.
Qed.

Lemma unknown_format_selects_mp3_witness :
  select_strategy (mkSong "Test Song 1" "Test Artist" 180 "ogg")
    (initial_world (λ _, 0%nat) (λ _, 0%Q))
  = Some (MP3Strategy, initial_world (λ _, 0%nat) (λ _, 0%Q)).
Proof.
  exact (proj1 (unknown_format_selects_mp3
    (mkSong "Test Song 1" "Test Artist" 180 "ogg")
    (initial_world (λ _, 0%nat) (λ _, 0%Q))
    ltac:(done) ltac:(done) ltac:(done))).
Defined.

(** ** Describing a base playlist *)

Lemma foldl_add_total acc xs : foldl Z.add acc xs = acc + total xs.
Proof.
  revert acc. induction xs as [|x xs IH]; intros acc; cbn; [lia|].
  rewrite IH. lia.
Qed.

Lemma py_sum_total xs : py_sum xs = total xs.
Proof. unfold py_sum. rewrite foldl_add_total. lia. Qed.

(** C8: [get_info] on a base playlist holding the songs [xs] raises nothing,
    changes nothing, and returns the text with the playlist's name, the
    number of songs [length xs] and the sum of their durations.  When the
    durations are 355, 482 and 391 the text reports 3 songs and 1228
    seconds. *)
Theorem get_info_counts_and_sums (w : world) (name : string) (l : loc) (xs : list Song) :
  w_lists w !! l = Some xs →
  BasicPlaylist_get_info name l w =
    Some ("Playlist: " +:+ name +:+ " | Songs: " +:+ pretty (length xs)
          +:+ " | Duration: " +:+ pretty (total (duration <$> xs)) +:+ "s", w)
  ∧ (duration <$> xs = [355; 482; 391] →
     BasicPlaylist_get_info name l w =
       Some ("Playlist: " +:+ name +:+ " | Songs: 3 | Duration: 1228s", w)).
Proof.
  intros H.
  assert (Hrun : BasicPlaylist_get_info name l w =
    Some ("Playlist: " +:+ name +:+ " | Songs: " +:+ pretty (length xs)
          +:+ " | Duration: " +:+ pretty (total (duration <$> xs)) +:+ "s", w)).
  { unfold BasicPlaylist_get_info, list_read, get_world.
    unfold mbind, M_bind. cbn. rewrite H. cbn. by rewrite py_sum_total. }
  split; [exact Hrun|].
  intros Hd. rewrite Hrun.
  assert (Hlen : length xs = 3%nat).
  { by rewrite <- (length_fmap duration), Hd. }
  rewrite Hd, Hlen. reflexivity.
Qed.

Lemma get_info_counts_and_sums_witness :
  BasicPlaylist_get_info "Classic Rock Hits" 0%nat
    (mkWorld None []
       [[mkSong "Bohemian Rhapsody" "Queen" 355 "flac";
         mkSong "Stairway to Heaven" "Led Zeppelin" 482 "mp3";
         mkSong "Hotel California" "Eagles" 391 "streaming"]]
       [] [] (λ _, 0%nat) 0%nat (λ _, 0%Q) 0%nat)
  = Some ("Playlist: Classic Rock Hits | Songs: 3 | Duration: 1228s",
          mkWorld None []
            [[mkSong "Bohemian Rhapsody" "Queen" 355 "flac";
              mkSong "Stairway to Heaven" "Led Zeppelin" 482 "mp3";
              mkSong "Hotel California" "Eagles" 391 "streaming"]]
            [] [] (λ _, 0%nat) 0%nat (λ _, 0%Q) 0%nat).
Proof.
  exact (proj2 (get_info_counts_and_sums
    (mkWorld None []
       [[mkSong "Bohemian Rhapsody" "Queen" 355 "flac";
         mkSong "Stairway to Heaven" "Led Zeppelin" 482 "mp3";
         mkSong "Hotel California" "Eagles" 391 "streaming"]]
       [] [] (λ _, 0%nat) 0%nat (λ _, 0%Q) 0%nat)
    "Classic Rock Hits" 0%nat _ eq_refl) eq_refl).
Defined.

(** ** Repetition *)

Lemma range_nonpositive n : n ≤ 0 → range n = [].
Proof. intros H. unfold range. by apply seqZ_nil. Qed.

Lemma run_repeat_nonpositive (inner : M unit) n w :
  n ≤ 0 →
  RepeatDecorator_play_all inner n w =
  Some (tt, set_out (w_out w ++ [Print (MsgRepeatEnabled n)]) w).
Proof.
  intros H. unfold RepeatDecorator_play_all. rewrite (range_nonpositive n H).
  reflexivity.
Qed.

(** C10: a [RepeatDecorator] is built from any integer [repeat_count]; the
    constructor checks nothing.  When the count is zero or negative,
    [play_all] raises nothing and returns after printing its banner: that
    line is the only change to the store, so the wrapped playlist's
    [play_all] has run zero times, whatever the wrapped playlist is. *)
Theorem repeat_nonpositive_plays_nothing (p : Playlist) (n : Z) (w : world) :
  n ≤ 0 →
  play_all (RepeatDecorator p n) w =
  Some (tt, set_out (w_out w ++ [Print (MsgRepeatEnabled n)]) w).
Proof. intros H. cbn [play_all]. by apply run_repeat_nonpositive. Qed.

Lemma repeat_nonpositive_plays_nothing_witness :
  play_all (RepeatDecorator (BasicPlaylist "My Favorites" 0%nat) (-2)) two_songs_world
  = Some (tt, set_out [Print (MsgRepeatEnabled (-2))] two_songs_world).
Proof.
  exact (repeat_nonpositive_plays_nothing (BasicPlaylist "My Favorites" 0%nat) (-2)
           two_songs_world ltac:(lia)).
Defined.

Lemma repeat_loop_passes (inner : M unit) (n : Z) (k : nat) (i : Z) (w : world) :
  i + Z.of_nat k = n →
  for_ (seqZ i (Z.of_nat k)) (λ i,
    print (MsgRound (i + 1));;
    inner;;
    if decide (i < n - 1) then print MsgRepeating;; sleep (3 # 10) else mret tt) w
  = passes inner k (i + 1) w.
Proof.
  revert i w. induction k as [|k IH]; intros i w Hn; [done|].
  rewrite seqZ_cons by lia. rewrite run_for_cons.
  replace (Z.pred (Z.of_nat (S k))) with (Z.of_nat k) by lia.
  cbn [passes]. unfold repeat_pause, print, sleep, modify, mbind, M_bind. cbn.
  destruct (inner _) as [[[] w1]|]; [|done].
  destruct k as [|k].
  - rewrite decide_False by lia. reflexivity.
  - rewrite decide_True by lia. cbn.
    specialize (IH (Z.succ i)).
    unfold print, sleep, modify, mbind, M_bind in IH.
    rewrite IH by lia. replace (Z.succ i + 1) with (i + 1 + 1) by lia. reflexivity.
Qed.

Lemma run_repeat_passes (inner : M unit) (n : Z) (w : world) :
  0 ≤ n →
  RepeatDecorator_play_all inner n w =
  (print (MsgRepeatEnabled n);; passes inner (Z.to_nat n) 1) w.
Proof.
  intros H. unfold RepeatDecorator_play_all, range.
  rewrite !run_bind. destruct (print _ w) as [[[] w1]|]; [|done].
  rewrite <- (Z2Nat.id n) at 1 by lia.
  rewrite (repeat_loop_passes inner n (Z.to_nat n) 0 w1) by lia. reflexivity.
Qed.

(** ** Playing a list of songs through the coordinator *)

Lemma run_play_one w self a song :
  w_players w !! self = Some (Ready a) →
  play_one self song w =
  Some (tt, set_out (w_out w ++ play_one_events (playback_strategy a) song)
              (set_players (<[self := Ready (played song a)]> (w_players w)) w)).
Proof.
  intros H. unfold play_one.
  run_step (run_play _ _ _ _ H).
  unfold play_one_events, sleep, modify, set_out. cbn. by rewrite app_assoc.
Qed.

Lemma run_play_loop xs w self a :
  w_players w !! self = Some (Ready a) →
  for_ xs (play_one self) w =
  Some (tt, set_out (w_out w ++ concat (play_one_events (playback_strategy a) <$> xs))
              (set_players (<[self := Ready (played_all xs a)]> (w_players w)) w)).
Proof.
  revert w a. induction xs as [|x xs IH]; intros w a H.
  - cbn. rewrite app_nil_r, (list_insert_id _ _ _ H). by destruct w.
  - rewrite run_for_cons, (run_play_one _ _ _ _ H).
    erewrite IH; [|cbn; by eapply players_insert_lookup].
    cbn. rewrite played_strategy, list_insert_insert_eq, <- !app_assoc. reflexivity.
Qed.

Lemma run_play_loop_access xs w :
  coordinator_ok w →
  for_ xs (play_one (access w).1) (access w).2 = Some (tt, after_playing xs w).
Proof.
  intros Hok. destruct (access_spec w Hok) as (_ & Hp & _).
  by rewrite (run_play_loop _ _ _ _ Hp).
Qed.

Lemma after_playing_spec xs w :
  coordinator_ok w →
  w_out (after_playing xs w)
    = w_out w ++ coordinator_events w
        ++ concat (play_one_events (playback_strategy (coordinator_attrs w)) <$> xs)
  ∧ w_players (after_playing xs w) !! (access w).1
    = Some (Ready (played_all xs (coordinator_attrs w)))
  ∧ w_instance (after_playing xs w) = Some (access w).1
  ∧ coordinator_ok (after_playing xs w)
  ∧ w_lists (after_playing xs w) = w_lists w
  ∧ w_stats (after_playing xs w) = w_stats w
  ∧ w_rand (after_playing xs w) = w_rand w
  ∧ w_rand_pos (after_playing xs w) = w_rand_pos w
  ∧ w_clock (after_playing xs w) = w_clock w
  ∧ w_clock_pos (after_playing xs w) = w_clock_pos w.
Proof.
  intros Hok.
  destruct (access_spec w Hok) as (Hi & Hp & Hout & Hlists & Hstats & Hr & Hrp & Hc & Hcp).
  assert (Hl : w_players (after_playing xs w) !! (access w).1
               = Some (Ready (played_all xs (coordinator_attrs w)))).
  { cbn. by eapply players_insert_lookup. }
  unfold coordinator_ok. cbn. rewrite Hout, Hi, <- app_assoc.
  split_and!; try done; cbn in Hl; by rewrite Hl.
Qed.

(** With no strategy set, each song costs one failure message and the pause. *)
Lemma play_one_events_unset xs :
  concat (play_one_events None <$> xs)
  = concat ((λ _, [Print MsgNoStrategy; Sleep (2 # 10)]) <$> xs).
Proof. reflexivity. Qed.

Lemma played_all_unset xs a :
  playback_strategy a = None → played_all xs a = a.
Proof.
  intros H. induction xs as [|x xs IH]; [done|].
  unfold played_all in *. cbn [foldl]. unfold played at 2. by rewrite H.
Qed.

Lemma run_basic_play_all_loop w name l xs :
  w_lists w !! l = Some xs →
  coordinator_ok w →
  let w0 := set_out (w_out w ++ [Print (MsgPlayingPlaylist name)]) w in
  play_all (BasicPlaylist name l) w = for_ xs (play_one (access w0).1) (access w0).2.
Proof.
  intros Hl Hok w0.
  assert (Hok0 : coordinator_ok w0) by done.
  destruct (access_spec w0 Hok0) as (_ & _ & _ & Hlists & _).
  cbn [play_all]. unfold BasicPlaylist_play_all. rewrite run_bind.
  change (print (MsgPlayingPlaylist name) w) with (Some (tt, w0)). cbn match.
  run_step (run_MusicPlayer _ Hok0).
  unfold list_read, get_world, mbind, M_bind. rewrite Hlists. cbn.
  rewrite Hl. reflexivity.
Qed.

Lemma run_basic_play_all w name l xs :
  w_lists w !! l = Some xs →
  coordinator_ok w →
  play_all (BasicPlaylist name l) w =
  Some (tt, after_playing xs (set_out (w_out w ++ [Print (MsgPlayingPlaylist name)]) w)).
Proof.
  intros Hl Hok. rewrite (run_basic_play_all_loop _ _ _ _ Hl Hok).
  by apply run_play_loop_access.
Qed.

(** C7: [play_all] on a base playlist holding [xs] raises nothing.  After
    the banner it obtains the coordinator, then runs [play] followed by the
    pause once for every song of [xs], first to last.  The log gains, song
    by song in that order, what [play] writes for it; when no strategy is
    set that is the failure message for each of the [length xs] songs, the
    loop going on after every failure, and the player's attributes stay as
    they were. *)
Theorem basic_play_all_plays_each_in_order
    (w : world) (name : string) (l : loc) (xs : list Song) :
  w_lists w !! l = Some xs →
  coordinator_ok w →
  let w0 := set_out (w_out w ++ [Print (MsgPlayingPlaylist name)]) w in
  let self := (access w0).1 in
  let st := playback_strategy (coordinator_attrs w0) in
  play_all (BasicPlaylist name l) w = for_ xs (play_one self) (access w0).2
  ∧ (∃ w', play_all (BasicPlaylist name l) w = Some (tt, w')
       ∧ w_out w' = w_out w ++ [Print (MsgPlayingPlaylist name)]
                      ++ coordinator_events w0
                      ++ concat (play_one_events st <$> xs)
       ∧ w_players w' !! self = Some (Ready (played_all xs (coordinator_attrs w0)))
       ∧ w_lists w' = w_lists w
       ∧ (st = None →
            w_out w' = w_out w ++ [Print (MsgPlayingPlaylist name)]
                         ++ coordinator_events w0
                         ++ concat ((λ _, [Print MsgNoStrategy; Sleep (2 # 10)]) <$> xs)
            ∧ w_players w' !! self = Some (Ready (coordinator_attrs w0)))).
Proof.
  intros Hl Hok w0 self st.
  assert (Hok0 : coordinator_ok w0) by done.
  split; [by apply run_basic_play_all_loop|].
  exists (after_playing xs w0). split; [by apply run_basic_play_all|].
  destruct (after_playing_spec xs w0 Hok0) as (Hout & Hp & _ & _ & Hlists & _).
  unfold self. rewrite Hout, Hp, Hlists.
  change (w_out w0) with (w_out w ++ [Print (MsgPlayingPlaylist name)]).
  rewrite <- !app_assoc. fold st. split_and!; try done.
  intros Hst. rewrite Hst, play_one_events_unset, played_all_unset; done.
Qed.

Lemma basic_play_all_plays_each_in_order_witness :
  play_all (BasicPlaylist "My Favorites" 0%nat) two_songs_world
  = for_ [song_a; song_b] (play_one 0%nat)
      (access (set_out [Print (MsgPlayingPlaylist "My Favorites")] two_songs_world)).2.
Proof.
  exact (proj1 (basic_play_all_plays_each_in_order two_songs_world "My Favorites"
                  0%nat [song_a; song_b] eq_refl I)).
Defined.

(** ** Shuffling *)

Lemma run_list_read w l xs :
  w_lists w !! l = Some xs → list_read l w = Some (xs, w).
Proof. intros H. unfold list_read, get_world, mbind, M_bind. by rewrite H. Qed.

Lemma run_list_getitem w l xs i x :
  w_lists w !! l = Some xs → xs !! i = Some x → list_getitem l i w = Some (x, w).
Proof.
  intros H Hi. unfold list_getitem.
  run_step (run_list_read _ _ _ H). by rewrite Hi.
Qed.

Lemma run_list_setitem w l xs i v :
  w_lists w !! l = Some xs → (i < length xs)%nat →
  list_setitem l i v w = Some (tt, set_lists (<[l := <[i := v]> xs]> (w_lists w)) w).
Proof.
  intros H Hi. unfold list_setitem.
  run_step (run_list_read _ _ _ H).
  by rewrite decide_True.
Qed.

Lemma lists_insert_lookup (ls : list (list Song)) l xs ys :
  ls !! l = Some xs → <[l := ys]> ls !! l = Some ys.
Proof. intros H. apply list_lookup_insert_eq. by eapply lookup_lt_Some. Qed.

Lemma run_shuffle_step w x xs i :
  w_lists w !! x = Some xs → (i < length xs)%nat →
  ∃ ys, ys ≡ₚ xs ∧
    shuffle_step x i w =
    Some (tt, set_rand_pos (S (w_rand_pos w)) (set_lists (<[x := ys]> (w_lists w)) w)).
Proof.
  intros H Hi. unfold shuffle_step.
  set (j := (w_rand w (w_rand_pos w) `mod` (i + 1))%nat).
  assert (Hj : (j < length xs)%nat).
  { pose proof (Nat.mod_upper_bound (w_rand w (w_rand_pos w)) (i + 1)). lia. }
  destruct (lookup_lt_is_Some_2 xs i Hi) as [xi Hxi].
  destruct (lookup_lt_is_Some_2 xs j Hj) as [xj Hxj].
  exists (<[j := xi]> (<[i := xj]> xs)).
  split; [by apply Permutation_insert_swap|].
  rewrite run_bind. unfold randbelow at 1. fold j. cbn match.
  set (w1 := set_rand_pos _ w).
  assert (H1 : w_lists w1 !! x = Some xs) by done.
  run_step (run_list_getitem _ _ _ _ _ H1 Hxj).
  run_step (run_list_getitem _ _ _ _ _ H1 Hxi).
  run_step (run_list_setitem _ _ _ _ xj H1 Hi).
  set (w2 := set_lists _ w1).
  assert (H2 : w_lists w2 !! x = Some (<[i := xj]> xs)).
  { cbn. by eapply lists_insert_lookup. }
  rewrite (run_list_setitem _ _ _ _ xi H2) by (by rewrite length_insert).
  subst w2 w1. cbn. by rewrite list_insert_insert_eq.
Qed.

Lemma run_shuffle_loop (idx : list nat) w x xs :
  w_lists w !! x = Some xs →
  (∀ i, i ∈ idx → (i < length xs)%nat) →
  ∃ ys, ys ≡ₚ xs ∧
    for_ idx (shuffle_step x) w =
    Some (tt, set_rand_pos (w_rand_pos w + length idx)
                (set_lists (<[x := ys]> (w_lists w)) w)).
Proof.
  revert w xs. induction idx as [|i idx IH]; intros w xs H Hidx.
  - exists xs. split; [done|]. cbn.
    rewrite Nat.add_0_r, (list_insert_id _ _ _ H). by destruct w.
  - destruct (run_shuffle_step w x xs i H) as (ys & Hperm & Hrun).
    { apply Hidx. by left. }
    set (w1 := set_rand_pos (S (w_rand_pos w)) (set_lists (<[x := ys]> (w_lists w)) w)) in *.
    destruct (IH w1 ys) as (zs & Hperm' & Hrun').
    { cbn. by eapply lists_insert_lookup. }
    { intros k Hk. rewrite (Permutation_length Hperm). apply Hidx. by right. }
    exists zs. split; [by rewrite Hperm'|].
    rewrite run_for_cons, Hrun, Hrun'. subst w1. cbn.
    rewrite list_insert_insert_eq.
    replace (S (w_rand_pos w + length idx)) with (w_rand_pos w + S (length idx))%nat by lia.
    reflexivity.
Qed.

(** [random.shuffle] leaves at [x] a permutation of what was there, draws
    one value per exchange, and touches nothing else. *)
Lemma run_random_shuffle w x xs :
  w_lists w !! x = Some xs →
  ∃ ys, ys ≡ₚ xs ∧
    random_shuffle x w =
    Some (tt, set_rand_pos (w_rand_pos w + (length xs - 1))
                (set_lists (<[x := ys]> (w_lists w)) w)).
Proof.
  intros H. unfold random_shuffle.
  run_step (run_list_read _ _ _ H).
  destruct (run_shuffle_loop (reverse (seq 1 (length xs - 1))) w x xs H)
    as (ys & Hperm & Hrun).
  { intros i [Hi1 Hi2]%elem_of_reverse%elem_of_seq. lia. }
  exists ys. split; [done|].
  rewrite length_reverse, length_seq in Hrun. exact Hrun.
Qed.

(** [get_songs], through any number of decorators, allocates a copy of the
    base playlist's list and returns its address. *)
Lemma run_get_songs p w xs :
  w_lists w !! base_songs p = Some xs →
  get_songs p w = Some (length (w_lists w), set_lists (w_lists w ++ [xs]) w).
Proof.
  induction p as [name l|q IH|q IH n|q IH c]; cbn [get_songs base_songs]; try exact IH.
  intros H. unfold list_copy.
  by run_step (run_list_read _ _ _ H).
Qed.

Lemma lookup_snoc_length {A} (l : list A) (x : A) : (l ++ [x]) !! length l = Some x.
Proof. by rewrite lookup_app_r, Nat.sub_diag by lia. Qed.

Lemma run_shuffle_play_all_loop (p : Playlist) (w : world) (xs : list Song) :
  w_lists w !! base_songs p = Some xs →
  coordinator_ok w →
  ∃ ys, ys ≡ₚ xs ∧
    play_all (ShuffleDecorator p) w
    = for_ ys (play_one (access (shuffled_world xs ys w)).1)
        (access (shuffled_world xs ys w)).2.
Proof.
  intros Hl Hok. cbn [play_all]. unfold ShuffleDecorator_play_all.
  rewrite run_bind.
  set (w0 := set_out (w_out w ++ [Print MsgShuffleEnabled]) w).
  change (print MsgShuffleEnabled w) with (Some (tt, w0)). cbn match.
  assert (Hl0 : w_lists w0 !! base_songs (ShuffleDecorator p) = Some xs) by done.
  run_step (run_get_songs _ _ _ Hl0).
  set (n := length (w_lists w0)).
  set (wa := set_lists (w_lists w0 ++ [xs]) w0).
  destruct (run_random_shuffle wa n xs) as (ys & Hperm & Hsh).
  { apply lookup_snoc_length. }
  run_step Hsh. clear Hsh.
  set (wb := set_rand_pos _ _).
  rewrite run_bind.
  set (w1 := set_out (w_out wb ++ [Print MsgPlayingShuffled]) wb).
  change (print MsgPlayingShuffled wb) with (Some (tt, w1)). cbn match.
  assert (Hw1 : w1 = shuffled_world xs ys w).
  { subst w1 wb wa n w0. unfold shuffled_world, set_out, set_rand_pos, set_lists. cbn.
    by rewrite insert_snoc, <- app_assoc. }
  rewrite Hw1. clear Hw1 w1.
  assert (Hok1 : coordinator_ok (shuffled_world xs ys w)) by done.
  destruct (access_spec _ Hok1) as (_ & _ & _ & Hlists & _).
  run_step (run_MusicPlayer _ Hok1).
  exists ys. split; [done|].
  erewrite run_bind_Some; [reflexivity|].
  apply run_list_read. rewrite Hlists. apply lookup_snoc_length.
Qed.

Lemma run_shuffle_play_all (p : Playlist) (w : world) (xs : list Song) :
  w_lists w !! base_songs p = Some xs →
  coordinator_ok w →
  ∃ ys, ys ≡ₚ xs ∧
    play_all (ShuffleDecorator p) w
    = Some (tt, after_playing ys (shuffled_world xs ys w)).
Proof.
  intros Hl Hok.
  destruct (run_shuffle_play_all_loop p w xs Hl Hok) as (ys & Hperm & Hrun).
  exists ys. split; [done|]. rewrite Hrun. by apply run_play_loop_access.
Qed.

(** C1: let [xs] be what the base playlist under [p] holds.  [play_all] on
    [ShuffleDecorator p] raises nothing.  It plays, through the coordinator
    and one after the other, the songs of some list [ys] that is a
    permutation of [xs]: no song lost, none added, so the log gains for the
    songs of [ys], in order, what [play] and the pause write.  [ys] is a new
    list object at the end of the store; every list that was in the store,
    the base playlist's among them, holds afterwards the songs it held, in
    the same order. *)
Theorem shuffle_plays_a_permutation (p : Playlist) (w : world) (xs : list Song) :
  w_lists w !! base_songs p = Some xs →
  coordinator_ok w →
  ∃ ys w',
    ys ≡ₚ xs
    ∧ play_all (ShuffleDecorator p) w = Some (tt, w')
    ∧ (∃ w1, coordinator_ok w1 ∧ w_lists w1 = w_lists w ++ [ys]
         ∧ play_all (ShuffleDecorator p) w = for_ ys (play_one (access w1).1) (access w1).2)
    ∧ w_out w' = w_out w ++ [Print MsgShuffleEnabled; Print MsgPlayingShuffled]
                   ++ coordinator_events w
                   ++ concat (play_one_events (playback_strategy (coordinator_attrs w)) <$> ys)
    ∧ w_lists w' = w_lists w ++ [ys]
    ∧ w_lists w' !! base_songs p = Some xs
    ∧ (∀ l zs, w_lists w !! l = Some zs → w_lists w' !! l = Some zs).
Proof.
  intros Hl Hok.
  destruct (run_shuffle_play_all_loop p w xs Hl Hok) as (ys & Hperm & Hrun).
  set (w1 := shuffled_world xs ys w) in *.
  assert (Hok1 : coordinator_ok w1) by done.
  destruct (after_playing_spec ys w1 Hok1) as (Hout & _ & _ & _ & Hlists & _).
  exists ys, (after_playing ys w1). split; [done|].
  split; [rewrite Hrun; by apply run_play_loop_access|].
  split; [by exists w1|].
  rewrite Hout, Hlists.
  change (w_out w1) with (w_out w ++ [Print MsgShuffleEnabled; Print MsgPlayingShuffled]).
  change (w_lists w1) with (w_lists w ++ [ys]).
  rewrite <- !app_assoc.
  split; [done|]. split; [done|]. split; [by apply lookup_app_l_Some|].
  intros l zs Hz. by apply lookup_app_l_Some.
Qed.

Lemma shuffle_plays_a_permutation_witness :
  ∃ ys w',
    ys ≡ₚ [song_a; song_b]
    ∧ play_all (ShuffleDecorator (BasicPlaylist "My Favorites" 0%nat)) two_songs_world
      = Some (tt, w')
    ∧ (∃ w1, coordinator_ok w1 ∧ w_lists w1 = w_lists two_songs_world ++ [ys]
         ∧ play_all (ShuffleDecorator (BasicPlaylist "My Favorites" 0%nat)) two_songs_world
           = for_ ys (play_one (access w1).1) (access w1).2)
    ∧ w_out w' = w_out two_songs_world ++ [Print MsgShuffleEnabled; Print MsgPlayingShuffled]
                   ++ coordinator_events two_songs_world
                   ++ concat (play_one_events
                                (playback_strategy (coordinator_attrs two_songs_world)) <$> ys)
    ∧ w_lists w' = w_lists two_songs_world ++ [ys]
    ∧ w_lists w' !! 0%nat = Some [song_a; song_b]
    ∧ (∀ l zs, w_lists two_songs_world !! l = Some zs → w_lists w' !! l = Some zs).
Proof.
  exact (shuffle_plays_a_permutation (BasicPlaylist "My Favorites" 0%nat)
           two_songs_world [song_a; song_b] eq_refl I).
Defined.

(** ** Well-formed playlists and what [play_all] may change *)

Lemma grows_same F w w' :
  w_lists w' = w_lists w → w_stats w' = w_stats w → coordinator_ok w' → grows F w w'.
Proof.
  intros Hl Hs Hok. unfold grows. rewrite Hl, Hs.
  split; [exists []; by rewrite app_nil_r|done].
Qed.

Lemma grows_trans F w1 w2 w3 : grows F w1 w2 → grows F w2 w3 → grows F w1 w3.
Proof.
  intros ([n1 Hl1] & Hn1 & Hs1 & _) ([n2 Hl2] & Hn2 & Hs2 & Hok).
  split; [exists (n1 ++ n2); by rewrite Hl2, Hl1, app_assoc|].
  split; [congruence|]. split; [|done].
  intros c Hc. by rewrite Hs2, Hs1.
Qed.

Lemma grows_mono F G w w' :
  (∀ c, c ∈ F → c ∈ G) → grows F w w' → grows G w w'.
Proof.
  intros HFG (Hl & Hn & Hs & Hok). split_and!; try done.
  intros c Hc. apply Hs. intros Hin. by apply Hc, HFG.
Qed.

Lemma valid_grows F w w' p : valid w p → grows F w w' → valid w' p.
Proof.
  intros Hv ([new Hl] & Hn & _ & _).
  induction p as [name l|q IH|q IH n|q IH c]; cbn [valid] in *; try by apply IH.
  - destruct Hv as [xs Hxs]. exists xs. rewrite Hl. by apply lookup_app_l_Some.
  - destruct Hv as [Hc Hq]. split; [|by apply IH].
    apply lookup_lt_is_Some. rewrite Hn. by apply lookup_lt_is_Some.
Qed.

Lemma valid_base_songs w p : valid w p → is_Some (w_lists w !! base_songs p).
Proof.
  induction p as [name l|q IH|q IH n|q IH c]; cbn [valid base_songs]; try done.
  intros [_ Hq]. by apply IH.
Qed.

(** A loop keeps what each round keeps. *)
Lemma for_invariant {A} (I : world → Prop) (xs : list A) (body : A → M unit) :
  (∀ x w, I w → ∃ w', body x w = Some (tt, w') ∧ I w') →
  ∀ w, I w → ∃ w', for_ xs body w = Some (tt, w') ∧ I w'.
Proof.
  intros Hbody. induction xs as [|x xs IH]; intros w Hw; [by exists w|].
  destruct (Hbody x w Hw) as (w1 & Hr & H1).
  destruct (IH w1 H1) as (w' & Hr' & H').
  exists w'. by rewrite run_for_cons, Hr.
Qed.

Lemma stats_insert_lookup (ss : list stats) c s s' :
  ss !! c = Some s → <[c := s']> ss !! c = Some s'.
Proof. intros H. apply list_lookup_insert_eq. by eapply lookup_lt_Some. Qed.

Lemma run_analytics_play_all (inner : M unit) c w w1 s1 :
  inner (set_clock_pos (S (w_clock_pos w))
           (set_out (w_out w ++ [Print MsgAnalyticsEnabled]) w)) = Some (tt, w1) →
  w_stats w1 !! c = Some s1 →
  AnalyticsDecorator_play_all inner c w =
  Some (tt, analytics_finish c (w_clock w (w_clock_pos w)) s1 w1).
Proof.
  intros Hin Hs.
  unfold AnalyticsDecorator_play_all, stats_read, stats_write, time_time, print,
    modify, get_world, mbind, M_bind. cbn.
  rewrite Hin. cbn. rewrite Hs. cbn.
  rewrite (stats_insert_lookup _ _ _ _ Hs). cbn.
  rewrite list_insert_insert_eq, (stats_insert_lookup _ _ _ _ Hs). cbn.
  reflexivity.
Qed.

Lemma grows_analytics_finish F c start s1 w1 :
  w_stats w1 !! c = Some s1 → coordinator_ok w1 →
  grows (c :: F) w1 (analytics_finish c start s1 w1).
Proof.
  intros Hs Hok. unfold grows, analytics_finish. cbn.
  split; [exists []; by rewrite app_nil_r|].
  split; [by rewrite length_insert|]. split; [|done].
  intros c' Hc'. apply list_lookup_insert_ne. intros ->. apply Hc'. by left.
Qed.

Lemma grows_set_out F w w' o : grows F w w' → grows F w (set_out o w').
Proof. intros (Hl & Hn & Hs & Hok). by split_and!. Qed.

Lemma grows_refl F w : coordinator_ok w → grows F w w.
Proof. intros Hok. by apply grows_same. Qed.

(** One round of the repetition loop keeps the invariant of the wrapped
    [play_all]. *)
Lemma repeat_round_invariant (I : world → Prop) (inner : M unit) (n i : Z) :
  (∀ w o, I w → I (set_out o w)) →
  (∀ w, I w → ∃ w', inner w = Some (tt, w') ∧ I w') →
  ∀ w, I w →
    ∃ w', (print (MsgRound (i + 1));;
           inner;;
           if decide (i < n - 1) then print MsgRepeating;; sleep (3 # 10) else mret tt) w
          = Some (tt, w') ∧ I w'.
Proof.
  intros Hout Hinner w Hw.
  destruct (Hinner (set_out (w_out w ++ [Print (MsgRound (i + 1))]) w)) as (w1 & Hr & H1).
  { by apply Hout. }
  unfold print, sleep, modify, mbind, M_bind. cbn. rewrite Hr.
  destruct (decide (i < n - 1)); cbn; eexists; (split; [reflexivity|]); auto.
Qed.

(** [play_all] on a well-formed playlist returns, and changes the store
    only by adding lists, updating the playlist's own counters, and acting
    on the coordinator. *)
Lemma play_all_grows (p : Playlist) (w : world) :
  valid w p → coordinator_ok w →
  ∃ w', play_all p w = Some (tt, w') ∧ grows (cells p) w w'.
Proof.
  revert w. induction p as [name l|q IH|q IH n|q IH c]; intros w Hv Hok.
  - destruct Hv as [xs Hxs].
    eexists. split; [by apply run_basic_play_all|].
    set (w0 := set_out _ w).
    destruct (after_playing_spec xs w0) as (_ & _ & _ & Hok' & Hl & Hs & _); [done|].
    by apply grows_same.
  - destruct (valid_base_songs w q Hv) as [xs Hxs].
    destruct (run_shuffle_play_all q w xs Hxs Hok) as (ys & _ & Hrun).
    eexists. split; [exact Hrun|].
    destruct (after_playing_spec ys (shuffled_world xs ys w))
      as (_ & _ & _ & Hok' & Hl & Hs & _); [done|].
    split; [exists [ys]; by rewrite Hl|]. rewrite Hs. done.
  - cbn [play_all cells]. unfold RepeatDecorator_play_all. rewrite run_bind.
    set (w0 := set_out (w_out w ++ [Print (MsgRepeatEnabled n)]) w).
    change (print (MsgRepeatEnabled n) w) with (Some (tt, w0)). cbn match.
    set (I := λ w1, valid w1 q ∧ grows (cells q) w w1).
    assert (HI0 : I w0).
    { split; [|by apply grows_set_out, grows_refl].
      eapply valid_grows; [exact Hv|]. by apply (grows_set_out []), grows_refl. }
    assert (H : ∃ w', for_ (range n) (λ i,
                print (MsgRound (i + 1));;
                play_all q;;
                if decide (i < n - 1) then print MsgRepeating;; sleep (3 # 10)
                else mret tt) w0 = Some (tt, w') ∧ I w').
    { apply for_invariant; [|exact HI0].
      intros i w1 H1. apply (repeat_round_invariant I); [| |done].
      - intros w2 o [Hv2 Hg2]. split; [|by apply grows_set_out].
        eapply valid_grows; [exact Hv2|]. apply (grows_set_out []), grows_refl, Hg2.
      - intros w2 [Hv2 Hg2].
        destruct (IH w2 Hv2) as (w3 & Hr3 & Hg3); [apply Hg2|].
        exists w3. split; [done|]. split; [by eapply valid_grows|by eapply grows_trans]. }
    destruct H as (w' & Hr & _ & Hg). by exists w'.
  - destruct Hv as [Hc Hv]. cbn [play_all cells].
    set (wa := set_clock_pos (S (w_clock_pos w))
                 (set_out (w_out w ++ [Print MsgAnalyticsEnabled]) w)).
    assert (Hga : grows (cells q) w wa) by (by apply grows_same).
    destruct (IH wa) as (w1 & Hr1 & Hg1); [by eapply valid_grows|done|].
    assert (Hc1 : is_Some (w_stats w1 !! c)).
    { apply lookup_lt_is_Some. destruct Hg1 as (_ & -> & _).
      by apply lookup_lt_is_Some. }
    destruct Hc1 as [s1 Hs1].
    eexists. split; [by eapply run_analytics_play_all|].
    eapply grows_trans; [eapply grows_mono; [|exact Hg1]|].
    + intros c' Hc'. by right.
    + apply grows_analytics_finish; [done|apply Hg1].
Qed.

(** One [play_all] of an [AnalyticsDecorator] whose counters are not also
    those of a decorator it wraps: the count goes up by one and the total
    by the elapsed clock time. *)
Lemma analytics_play_all_counts (q : Playlist) (c : loc) (w : world) (s : stats) :
  valid w q → coordinator_ok w → c ∉ cells q → w_stats w !! c = Some s →
  ∃ w' d, play_all (AnalyticsDecorator q c) w = Some (tt, w')
    ∧ w_stats w' !! c = Some (mkStats (play_count s + 1) (total_listening_time s + d)%Q)
    ∧ grows (c :: cells q) w w'.
Proof.
  intros Hv Hok Hc Hs.
  set (wa := set_clock_pos (S (w_clock_pos w))
               (set_out (w_out w ++ [Print MsgAnalyticsEnabled]) w)).
  assert (Hga : grows (cells q) w wa) by (by apply grows_same).
  destruct (play_all_grows q wa) as (w1 & Hr1 & Hg1); [by eapply valid_grows|done|].
  assert (Hs1 : w_stats w1 !! c = Some s).
  { destruct Hg1 as (_ & _ & Hfr & _). by rewrite Hfr. }
  exists (analytics_finish c (w_clock w (w_clock_pos w)) s w1),
         (w_clock w1 (w_clock_pos w1) - w_clock w (w_clock_pos w))%Q.
  split; [by eapply run_analytics_play_all|]. split.
  - cbn. by eapply stats_insert_lookup.
  - eapply grows_trans; [eapply grows_mono; [|exact Hg1]|].
    + intros c' Hc'. by right.
    + apply grows_analytics_finish; [done|apply Hg1].
Qed.

(** ** Counting plays *)

(** An [AnalyticsDecorator] over [q] whose counters, at [c], are not also
    those of a decorator inside [q]. *)
Section Counting.
Context (q : Playlist) (c : loc).
Hypothesis counters_not_shared : c ∉ cells q.

Lemma counted_set_out k w o : counted q c k w → counted q c k (set_out o w).
Proof.
  intros (Hv & Hok & Ht). split; [|done].
  eapply valid_grows; [exact Hv|]. by apply (grows_set_out []), grows_refl.
Qed.

Lemma counted_play k w :
  counted q c k w →
  ∃ w', play_all (AnalyticsDecorator q c) w = Some (tt, w') ∧ counted q c (k + 1) w'.
Proof using counters_not_shared.
  intros (Hv & Hok & t & Ht).
  destruct (analytics_play_all_counts q c w _ Hv Hok counters_not_shared Ht)
    as (w' & d & Hr & Hs & Hg).
  exists w'. split; [done|]. split; [by eapply valid_grows|].
  split; [apply Hg|]. by eexists.
Qed.

Lemma counted_passes (n : nat) (round k : Z) (w : world) :
  counted q c k w →
  ∃ w', passes (play_all (AnalyticsDecorator q c)) n round w = Some (tt, w')
        ∧ counted q c (k + Z.of_nat n) w'.
Proof using counters_not_shared.
  revert round k w. induction n as [|n IH]; intros round k w Hk.
  { exists w. split; [done|]. by rewrite Z.add_0_r. }
  cbn [passes]. rewrite run_bind.
  set (w0 := set_out (w_out w ++ [Print (MsgRound round)]) w).
  change (print (MsgRound round) w) with (Some (tt, w0)). cbn match.
  destruct (counted_play k w0) as (w1 & Hr1 & Hk1); [by apply counted_set_out|].
  run_step Hr1.
  destruct n as [|n].
  { exists w1. split; [done|]. by replace (k + Z.of_nat 1) with (k + 1) by lia. }
  set (w2 := set_out ((w_out w1 ++ [Print MsgRepeating]) ++ [Sleep (3 # 10)]) w1).
  assert (Hp : repeat_pause w1 = Some (tt, w2)) by done.
  run_step Hp.
  destruct (IH (round + 1) (k + 1) w2) as (w' & Hr' & Hk'); [by apply counted_set_out|].
  exists w'. split; [done|].
  by replace (k + Z.of_nat (S (S n))) with (k + 1 + Z.of_nat (S n)) by lia.
Qed.

Lemma counted_plays (N a : nat) (k : Z) (w : world) :
  counted q c k w →
  ∃ w', for_ (seq a N) (λ _, play_all (AnalyticsDecorator q c)) w = Some (tt, w')
        ∧ counted q c (k + Z.of_nat N) w'.
Proof using counters_not_shared.
  revert a k w. induction N as [|N IH]; intros a k w Hk.
  { exists w. split; [done|]. by rewrite Z.add_0_r. }
  cbn [seq]. rewrite run_for_cons.
  destruct (counted_play k w Hk) as (w1 & Hr1 & Hk1). rewrite Hr1.
  destruct (IH (S a) (k + 1) w1 Hk1) as (w' & Hr' & Hk').
  exists w'. split; [done|].
  by replace (k + Z.of_nat (S N)) with (k + 1 + Z.of_nat N) by lia.
Qed.

End Counting.

(** C2: for a [RepeatDecorator] with [repeat_count] [n > 0], [play_all] is
    the banner followed by [n] passes of the wrapped [play_all], run one
    after the other, with the pause after each pass but the last; for
    [n = 3] that is pass, pause, pass, pause, pass.  On a well-formed
    playlist it returns.  When the wrapped playlist is an
    [AnalyticsDecorator], whose counter goes up by one per [play_all], the
    counter has gone up by exactly [n] when the repetition returns. *)
Theorem repeat_runs_inner_n_times (p : Playlist) (n : Z) (w : world) :
  0 < n →
  play_all (RepeatDecorator p n) w
    = (print (MsgRepeatEnabled n);; passes (play_all p) (Z.to_nat n) 1) w
  ∧ (n = 3 →
     play_all (RepeatDecorator p n) w
       = (print (MsgRepeatEnabled 3);;
          print (MsgRound 1);; play_all p;; repeat_pause;;
          print (MsgRound 2);; play_all p;; repeat_pause;;
          print (MsgRound 3);; play_all p) w)
  ∧ (valid w p → coordinator_ok w →
     ∃ w', play_all (RepeatDecorator p n) w = Some (tt, w'))
  ∧ (∀ q c k, p = AnalyticsDecorator q c → c ∉ cells q → counted q c k w →
     ∃ w', play_all (RepeatDecorator p n) w = Some (tt, w')
           ∧ counted q c (k + n) w').
Proof.
  intros Hn.
  assert (Heq : play_all (RepeatDecorator p n) w
    = (print (MsgRepeatEnabled n);; passes (play_all p) (Z.to_nat n) 1) w).
  { cbn [play_all]. apply run_repeat_passes. lia. }
  split; [exact Heq|]. split; [|split].
  - intros ->. rewrite Heq.
    change (Z.to_nat 3) with 3%nat. cbn [passes].
    unfold repeat_pause, print, sleep, modify, mbind, M_bind. cbn.
    repeat (destruct (play_all p _) as [[[] ?]|]; [cbn|done]). reflexivity.
  - intros Hv Hok.
    destruct (play_all_grows (RepeatDecorator p n) w Hv Hok) as (w' & Hr & _).
    by exists w'.
  - intros q c k -> Hc Hk. rewrite Heq, run_bind.
    set (w0 := set_out (w_out w ++ [Print (MsgRepeatEnabled n)]) w).
    change (print (MsgRepeatEnabled n) w) with (Some (tt, w0)). cbn match.
    destruct (counted_passes q c Hc (Z.to_nat n) 1 k w0) as (w' & Hr & Hk');
      [by apply counted_set_out|].
    exists w'. split; [done|]. by rewrite Z2Nat.id in Hk' by lia.
Qed.

Lemma counted_analytics_world :
  counted (BasicPlaylist "My Favorites" 0%nat) 0%nat 0 analytics_world.
Proof.
  split; [by eexists|]. split; [exact I|]. by eexists.
Defined.

Lemma repeat_runs_inner_n_times_witness :
  ∃ w', play_all (RepeatDecorator tracked_favorites 3) analytics_world = Some (tt, w')
        ∧ counted (BasicPlaylist "My Favorites" 0%nat) 0%nat (0 + 3) w'.
Proof.
  exact (proj2 (proj2 (proj2
    (repeat_runs_inner_n_times tracked_favorites 3 analytics_world ltac:(lia))))
    (BasicPlaylist "My Favorites" 0%nat) 0%nat 0 eq_refl
    (not_elem_of_nil 0%nat) counted_analytics_world).
Defined.

(** ** Analytics *)

(** *** Rounding to an integer *)

Lemma round_half_even_comp (x y : Q) : (x == y)%Q → round_half_even x = round_half_even y.
Proof.
  intros H. unfold round_half_even. rewrite <- (Qfloor_comp _ _ H).
  by rewrite <- (Qcompare_comp _ _ (Qminus_comp _ _ H _ _ (Qeq_refl _)) _ _ (Qeq_refl (1 # 2))).
Qed.

Lemma round_half_even_nearest (x : Q) : nearest_even x (round_half_even x).
Proof.
  unfold nearest_even, round_half_even.
  pose proof (Qfloor_le x) as Hl. pose proof (Qlt_floor x) as Hu.
  rewrite inject_Z_plus in Hu. change (inject_Z 1) with 1%Q in Hu.
  destruct (x - inject_Z (Qfloor x) ?= 1 # 2)%Q eqn:Hc.
  - apply (proj2 (Qeq_alt _ _)) in Hc.
    destruct (Z.even (Qfloor x)) eqn:He.
    + split; [|done]. apply Qabs_Qle_condition. lra.
    + split; [apply Qabs_Qle_condition; rewrite inject_Z_plus;
              change (inject_Z 1) with 1%Q; lra|].
      intros _. rewrite Z.even_add, He. reflexivity.
  - apply (proj2 (Qlt_alt _ _)) in Hc. split; [apply Qabs_Qle_condition; lra|].
    intros Ht. exfalso. rewrite Qabs_neg in Ht by lra. lra.
  - apply (proj2 (Qgt_alt _ _)) in Hc.
    split; [apply Qabs_Qle_condition; rewrite inject_Z_plus;
            change (inject_Z 1) with 1%Q; lra|].
    intros Ht. exfalso. rewrite inject_Z_plus in Ht. change (inject_Z 1) with 1%Q in Ht.
    rewrite Qabs_pos in Ht by lra. lra.
Qed.

Lemma round_half_even_Z (z : Z) : round_half_even (inject_Z z) = z.
Proof.
  unfold round_half_even. rewrite Qfloor_Z.
  assert ((inject_Z z - inject_Z z ?= 1 # 2)%Q = Lt) as ->; [|done].
  apply (proj1 (Qlt_alt _ _)). lra.
Qed.

Lemma nearest_even_comp (x y : Q) (k : Z) : (x == y)%Q → nearest_even x k → nearest_even y k.
Proof.
  intros H [H1 H2]. unfold nearest_even.
  assert (Qabs (inject_Z k - y) == Qabs (inject_Z k - x))%Q as He.
  { apply Qabs_wd. lra. }
  split; [lra|]. intros Ht. apply H2. lra.
Qed.

(** *** Powers of two *)

Lemma pow2_pos (e : Z) : (0 < 2 ^ e)%Q.
Proof. by apply Qpower_0_lt. Qed.

Lemma pow2_add (a b : Z) : (2 ^ (a + b) == 2 ^ a * 2 ^ b)%Q.
Proof. by apply Qpower_plus. Qed.

Lemma pow2_mono (a b : Z) : a ≤ b → (2 ^ a <= 2 ^ b)%Q.
Proof. intros H. apply Qpower_le_compat_l; [done|]. by apply Qle_bool_imp_le. Qed.

Lemma pow2_Z (n : Z) : 0 ≤ n → (inject_Z (2 ^ n) == 2 ^ n)%Q.
Proof. intros H. by rewrite Zpower_Qpower. Qed.

(** [ilog2 q] is the exponent of the power of two at or just below [q]. *)
Lemma ilog2_spec (q : Q) : (0 < q)%Q → (2 ^ ilog2 q <= q)%Q ∧ (q < 2 ^ (ilog2 q + 1))%Q.
Proof.
  intros Hq. destruct q as [n d]. unfold ilog2. cbn [Qnum Qden].
  assert (0 < n) as Hn by (unfold Qlt in Hq; cbn in Hq; lia).
  pose proof (Z.log2_spec n Hn) as [Hn1 Hn2].
  pose proof (Z.log2_spec (Z.pos d) eq_refl) as [Hd1 Hd2].
  pose proof (Z.log2_nonneg n) as Ha. pose proof (Z.log2_nonneg (Z.pos d)) as Hb.
  set (a := Z.log2 n) in *. set (b := Z.log2 (Z.pos d)) in *.
  assert (n # d == inject_Z n / inject_Z (Z.pos d))%Q as Hnd by apply Qmake_Qdiv.
  assert (0 < inject_Z (Z.pos d))%Q as Hdpos by (by rewrite <- (Zlt_Qlt 0)).
  assert (inject_Z (2 ^ a) <= inject_Z n)%Q as Hn1' by (by rewrite <- Zle_Qle).
  assert (inject_Z n < inject_Z (2 ^ Z.succ a))%Q as Hn2' by (by rewrite <- Zlt_Qlt).
  assert (inject_Z (2 ^ b) <= inject_Z (Z.pos d))%Q as Hd1' by (by rewrite <- Zle_Qle).
  assert (inject_Z (Z.pos d) < inject_Z (2 ^ Z.succ b))%Q as Hd2' by (by rewrite <- Zlt_Qlt).
  rewrite pow2_Z in Hn1', Hn2', Hd1', Hd2' by lia.
  destruct (Qle_bool (2 ^ (a - b)) (n # d)) eqn:Hc.
  - split; [by apply Qle_bool_iff|].
    replace (a - b + 1) with (Z.succ a + - b) by lia.
    rewrite pow2_add, Qpower_opp, Hnd.
    apply Qlt_shift_div_r; [done|].
    pose proof (pow2_pos (Z.succ a)) as H1. pose proof (pow2_pos b) as H2.
    assert (2 ^ Z.succ a * / 2 ^ b * 2 ^ b == 2 ^ Z.succ a)%Q as H3 by (field; lra).
    assert (2 ^ Z.succ a * / 2 ^ b * 2 ^ b
            <= 2 ^ Z.succ a * / 2 ^ b * inject_Z (Z.pos d))%Q.
    { apply Qmult_le_l; [|done]. apply Qmult_lt_0_compat; [done|]. by apply Qinv_lt_0_compat. }
    lra.
  - assert (n # d < 2 ^ (a - b))%Q as Hlt.
    { apply Qnot_le_lt. intros H%Qle_bool_iff. congruence. }
    replace (a - b - 1 + 1) with (a - b) by lia. split; [|done].
    replace (a - b - 1) with (a + - Z.succ b) by lia.
    rewrite pow2_add, Qpower_opp, Hnd.
    apply Qle_shift_div_l; [done|].
    pose proof (pow2_pos a) as H1. pose proof (pow2_pos (Z.succ b)) as H2.
    assert (2 ^ a * / 2 ^ Z.succ b * 2 ^ Z.succ b == 2 ^ a)%Q as H3 by (field; lra).
    assert (2 ^ a * / 2 ^ Z.succ b * inject_Z (Z.pos d)
            <= 2 ^ a * / 2 ^ Z.succ b * 2 ^ Z.succ b)%Q.
    { apply Qmult_le_l; [|lra]. apply Qmult_lt_0_compat; [done|]. by apply Qinv_lt_0_compat. }
    lra.
Qed.

(** *** Rounding to a float *)

(** [binary64 x] is the binary64 number nearest to [x]. *)
Lemma binary64_nearest (x : Q) : nearest_binary64 x (binary64 x).
Proof.
  unfold binary64. destruct (Qeq_bool x 0) eqn:Hz.
  - apply Qeq_bool_iff in Hz. exists 0, (-1074).
    assert (Qabs x == 0)%Q as Ha by (rewrite (Qabs_wd _ _ Hz); reflexivity).
    pose proof (pow2_pos (-1074 + 53)) as Hp.
    split; [symmetry; apply Qmult_0_l|]. split; [done|]. split; [lra|]. split; [lia|].
    apply (nearest_even_comp (inject_Z 0));
      [|rewrite <- (round_half_even_Z 0) at 2; apply round_half_even_nearest].
    change (inject_Z 0) with 0%Q. pose proof (pow2_pos (-1074)). field_simplify_eq; lra.
  - assert (¬ (x == 0)%Q) as Hx by (intros H%Qeq_bool_iff; congruence).
    assert (0 < Qabs x)%Q as Hpos.
    { apply Qabs_case; intros [H|H]%Qle_lteq; try lra; destruct Hx; lra. }
    destruct (ilog2_spec _ Hpos) as [Hl Hu].
    exists (round_half_even (x / 2 ^ binary64_exponent x)), (binary64_exponent x).
    unfold binary64_exponent in *. set (L := ilog2 (Qabs x)) in *.
    split; [reflexivity|]. split; [lia|]. split; [|split].
    + eapply Qlt_le_trans; [exact Hu|]. apply pow2_mono. lia.
    + intros He. rewrite Z.max_l by lia. by replace (L - 52 + 52) with L by lia.
    + apply round_half_even_nearest.
Qed.

(** On the samples, [binary64] of the exact quotient is the quotient the
    standard library's IEEE 754 division gives. *)
Lemma binary64_agrees_with_SFdiv :
  Forall (λ '(m, e, b),
            (binary64 (binary64 (inject_Z m * 2 ^ e) / binary64 (inject_Z b))
             == ieee_quotient m e b)%Q)
         division_samples.
Proof. repeat constructor; by vm_compute. Qed.

Lemma nearest_binary64_comp (x x' y : Q) :
  (x == x')%Q → nearest_binary64 x y → nearest_binary64 x' y.
Proof.
  intros H (m & e & H1 & H2 & H3 & H4 & H5). exists m, e.
  pose proof (Qabs_wd _ _ H) as Ha.
  split; [done|]. split; [done|]. split; [lra|]. split; [intros He; specialize (H4 He); lra|].
  apply (nearest_even_comp (x / 2 ^ e)); [|done]. by rewrite H.
Qed.

(** [round(x, 1)] as the model computes it is the float nearest to the
    nearest number of tenths. *)
Lemma py_round1_rounded (x : Q) : rounded_to_tenth x (py_round1 x).
Proof.
  exists (round_half_even (x * 10)).
  split; [apply round_half_even_nearest|apply binary64_nearest].
Qed.

Lemma binary64_integral (x : Q) (z : Z) :
  (x / 2 ^ binary64_exponent x == inject_Z z)%Q → (binary64 x == x)%Q.
Proof.
  intros H. unfold binary64. destruct (Qeq_bool x 0) eqn:Hz.
  - apply Qeq_bool_iff in Hz. by symmetry.
  - rewrite (round_half_even_comp _ _ H), round_half_even_Z, <- H.
    pose proof (pow2_pos (binary64_exponent x)). field. lra.
Qed.

(** An integer from 1 to [2 ^ 53] is a float. *)
Lemma binary64_int_exact (b : Z) :
  1 ≤ b ≤ 2 ^ 53 → (binary64 (inject_Z b) == inject_Z b)%Q.
Proof.
  intros [H1 H2].
  assert (1 <= inject_Z b)%Q as Hb1 by (by rewrite <- (Zle_Qle 1)).
  assert (inject_Z b <= 2 ^ 53)%Q as Hb2 by (rewrite <- pow2_Z by done; by rewrite <- Zle_Qle).
  assert (Qabs (inject_Z b) == inject_Z b)%Q as Ha by (apply Qabs_pos; lra).
  destruct (ilog2_spec (Qabs (inject_Z b))) as [Hl Hu]; [lra|].
  set (L := ilog2 (Qabs (inject_Z b))) in *.
  assert (0 ≤ L) as HL0.
  { destruct (decide (0 ≤ L)) as [|Hn]; [done|].
    pose proof (pow2_mono (L + 1) 0 ltac:(lia)) as Hm. change (2 ^ 0)%Q with 1%Q in Hm. lra. }
  assert (L ≤ 53) as HL1.
  { destruct (decide (L ≤ 53)) as [|Hn]; [done|].
    pose proof (pow2_mono 54 L ltac:(lia)) as Hm.
    assert (2 ^ 53 < 2 ^ 54)%Q by done. lra. }
  assert (binary64_exponent (inject_Z b) = L - 52) as He.
  { unfold binary64_exponent. fold L. lia. }
  destruct (decide (L = 53)) as [->|Hne].
  - assert (2 ^ 53 ≤ b) as Hb3.
    { rewrite Zle_Qle, pow2_Z by done. lra. }
    assert (b = 2 ^ 53) as -> by lia.
    apply (binary64_integral _ (2 ^ 52)). rewrite He. reflexivity.
  - apply (binary64_integral _ (b * 2 ^ (52 - L))). rewrite He.
    replace (L - 52) with (- (52 - L)) by lia.
    rewrite Qpower_opp, inject_Z_mult, pow2_Z by lia.
    pose proof (pow2_pos (52 - L)). field. lra.
Qed.

(** *** [get_analytics] *)

Lemma run_stats_read w c s :
  w_stats w !! c = Some s → stats_read c w = Some (s, w).
Proof. intros H. unfold stats_read, get_world, mbind, M_bind. by rewrite H. Qed.

(** The division succeeds for a divisor from 1 to [2 ^ 53]. *)
Lemma run_py_truediv (a : Q) (b : Z) (w : world) :
  1 ≤ b ≤ 2 ^ 53 →
  py_truediv a b w = Some (binary64 (a / binary64 (inject_Z b)), w).
Proof.
  intros Hb. pose proof (binary64_int_exact b Hb) as He.
  assert (1 <= inject_Z b)%Q as Hb1 by (rewrite <- (Zle_Qle 1); lia).
  assert (inject_Z b <= 2 ^ 53)%Q as Hb2
    by (rewrite <- pow2_Z by done; rewrite <- Zle_Qle; lia).
  unfold py_truediv, int_to_float, mbind, M_bind.
  destruct (Qle_bool (2 ^ 1024) (Qabs (binary64 (inject_Z b)))) eqn:Ho.
  { exfalso. apply Qle_bool_iff in Ho. rewrite Qabs_pos in Ho by lra.
    pose proof (pow2_mono 54 1024 ltac:(lia)). assert (2 ^ 53 < 2 ^ 54)%Q by done. lra. }
  unfold mret, M_ret.
  destruct (Qeq_bool (binary64 (inject_Z b)) 0) eqn:Hz; [|done].
  exfalso. apply Qeq_bool_iff in Hz. lra.
Qed.

Lemma run_get_analytics (c : loc) (w : world) (s : stats) :
  w_stats w !! c = Some s → play_count s ≤ 2 ^ 53 →
  AnalyticsDecorator_get_analytics c w =
  Some (mkAnalytics (play_count s)
          (py_round1 (total_listening_time s))
          (py_round1 (binary64 (total_listening_time s
                                / binary64 (inject_Z (Z.max 1 (play_count s)))))),
        w).
Proof.
  intros H Hb. unfold AnalyticsDecorator_get_analytics.
  run_step (run_stats_read _ _ _ H).
  assert (1 ≤ Z.max 1 (play_count s) ≤ 2 ^ 53) as Hd by lia.
  by run_step (run_py_truediv (total_listening_time s) _ w Hd).
Qed.

(** What [get_analytics] returns, from the counters it reads: the count,
    the total rounded to one decimal, and the float quotient of the total
    by [max(1, count)] rounded to one decimal. *)
Lemma get_analytics_result (c : loc) (w : world) (s : stats) :
  w_stats w !! c = Some s → play_count s ≤ 2 ^ 53 →
  ∃ r quotient,
    AnalyticsDecorator_get_analytics c w = Some (r, w)
    ∧ a_play_count r = play_count s
    ∧ rounded_to_tenth (total_listening_time s) (a_total_listening_time r)
    ∧ nearest_binary64
        (total_listening_time s / inject_Z (Z.max 1 (play_count s))) quotient
    ∧ rounded_to_tenth quotient (a_average_session_time r).
Proof.
  intros H Hb. eexists _, _. split; [by apply run_get_analytics|].
  cbn [a_play_count a_total_listening_time a_average_session_time].
  split; [done|]. split; [apply py_round1_rounded|]. split; [|apply py_round1_rounded].
  eapply nearest_binary64_comp; [|apply binary64_nearest].
  by rewrite (binary64_int_exact (Z.max 1 (play_count s))) by lia.
Qed.

(** C3, as the code has it: the divisor [max(1, play_count)] is never 0,
    and for a count a float holds exactly [get_analytics] raises nothing
    and changes nothing.  It returns the play count and two floats rounded
    by [round(_, 1)]: the total, and as average the float quotient of the
    total by [max(1, play_count)].  Each float operation gives the binary64
    number nearest to the exact result, and [round(_, 1)] the float nearest
    to the nearest number of tenths, ties to even in both.  On a newly
    built decorator the count is 0 and the total and the average are 0.
    After [N] calls of [play_all] on it the count is [N], and for [N >= 1]
    the average is the float quotient of the stored total by [N], rounded
    to one decimal. *)
Theorem analytics_average_guarded_and_rounded
    (q : Playlist) (c : loc) (w : world) (N : nat) :
  valid w q → coordinator_ok w → c ∉ cells q →
  w_stats w !! c = Some (mkStats 0 0) →
  (∀ w1 s, w_stats w1 !! c = Some s → play_count s ≤ 2 ^ 53 →
     Z.max 1 (play_count s) ≠ 0
     ∧ ∃ r quotient,
         AnalyticsDecorator_get_analytics c w1 = Some (r, w1)
         ∧ a_play_count r = play_count s
         ∧ rounded_to_tenth (total_listening_time s) (a_total_listening_time r)
         ∧ nearest_binary64
             (total_listening_time s / inject_Z (Z.max 1 (play_count s))) quotient
         ∧ rounded_to_tenth quotient (a_average_session_time r))
  ∧ (∃ r, AnalyticsDecorator_get_analytics c w = Some (r, w)
          ∧ a_play_count r = 0
          ∧ (a_total_listening_time r == 0)%Q
          ∧ (a_average_session_time r == 0)%Q)
  ∧ (∃ w' t,
       for_ (seq 0 N) (λ _, play_all (AnalyticsDecorator q c)) w = Some (tt, w')
       ∧ w_stats w' !! c = Some (mkStats (Z.of_nat N) t)
       ∧ (Z.of_nat N ≤ 2 ^ 53 →
          ∃ r, AnalyticsDecorator_get_analytics c w' = Some (r, w')
            ∧ a_play_count r = Z.of_nat N
            ∧ rounded_to_tenth t (a_total_listening_time r)
            ∧ ((1 ≤ N)%nat →
               ∃ quotient,
                 nearest_binary64 (t / inject_Z (Z.of_nat N)) quotient
                 ∧ rounded_to_tenth quotient (a_average_session_time r)))).
Proof.
  intros Hv Hok Hc Hs. split; [|split].
  - intros w1 s H1 Hb. split; [lia|by apply get_analytics_result].
  - eexists. split; [by apply run_get_analytics|].
    cbn [a_play_count a_total_listening_time a_average_session_time
         play_count total_listening_time].
    split; [done|]. split; reflexivity.
  - destruct (counted_plays q c Hc N 0 0 w) as (w' & Hr & _ & _ & t & Ht).
    { split; [done|]. split; [done|]. by eexists. }
    rewrite Z.add_0_l in Ht.
    exists w', t. split; [exact Hr|]. split; [exact Ht|]. intros Hb.
    destruct (get_analytics_result c w' _ Ht Hb) as (r & quotient & Hg & H1 & H2 & H3 & H4).
    cbn [play_count total_listening_time] in H1, H2, H3.
    exists r. split; [exact Hg|]. split; [exact H1|]. split; [exact H2|].
    intros HN. exists quotient. split; [|exact H4].
    by rewrite Z.max_r in H3 by lia.
Qed.

Lemma analytics_average_guarded_and_rounded_witness :
  ∃ w' t,
    for_ (seq 0 3) (λ _, play_all tracked_favorites) analytics_world = Some (tt, w')
    ∧ w_stats w' !! 0%nat = Some (mkStats (Z.of_nat 3) t)
    ∧ (Z.of_nat 3 ≤ 2 ^ 53 →
       ∃ r, AnalyticsDecorator_get_analytics 0%nat w' = Some (r, w')
         ∧ a_play_count r = Z.of_nat 3
         ∧ rounded_to_tenth t (a_total_listening_time r)
         ∧ ((1 ≤ 3)%nat →
            ∃ quotient,
              nearest_binary64 (t / inject_Z (Z.of_nat 3)) quotient
              ∧ rounded_to_tenth quotient (a_average_session_time r))).
Proof.
  exact (proj2 (proj2
    (analytics_average_guarded_and_rounded (BasicPlaylist "My Favorites" 0%nat)
       0%nat analytics_world 3
       (ex_intro _ [song_a; song_b] eq_refl) I (not_elem_of_nil 0%nat) eq_refl))).
Defined.

(** Three sessions of 1/2, 1/2 and 1 second on a newly built decorator:
    the total is 2 and [get_analytics] reports 3 plays, a total of 2.0 and
    an average of 0.7, the float [3152519739159347 / 2 ^ 52].  That is
    neither 2 / 3, nor the float quotient of 2.0 by 3, nor the reported
    total divided by 3. *)
Lemma analytics_average_not_exact :
  ∃ r w',
    (for_ (seq 0 3) (λ _, play_all tracked_favorites);;
     AnalyticsDecorator_get_analytics 0%nat) analytics_world = Some (r, w')
    ∧ a_play_count r = 3
    ∧ (∃ t, w_stats w' !! 0%nat = Some (mkStats 3 t) ∧ (t == 2)%Q)
    ∧ (a_total_listening_time r == 2)%Q
    ∧ (a_average_session_time r == 3152519739159347 # 4503599627370496)%Q
    ∧ nearest_binary64 (7 # 10) (a_average_session_time r)
    ∧ ¬ (a_average_session_time r == 2 / inject_Z (Z.max 1 3))%Q
    ∧ ¬ (a_average_session_time r == binary64 (2 / inject_Z (Z.max 1 3)))%Q
    ∧ ¬ (a_average_session_time r == a_total_listening_time r / inject_Z (Z.max 1 3))%Q.
Proof.
  eexists _, _. split; [vm_compute; reflexivity|].
  cbn [a_play_count a_total_listening_time a_average_session_time].
  split; [reflexivity|]. split; [eexists; split; reflexivity|].
  split; [reflexivity|]. split; [reflexivity|].
  split; [eapply nearest_binary64_comp; [|apply (binary64_nearest (7 # 10))]; reflexivity|].
  split_and!; intros H; vm_compute in H; discriminate H.
Qed.

(** Five plays that took 3/4 of a second in all: the float quotient of 0.75
    by 5 lies just below 3/20, and the average reported is the float 0.1,
    [3602879701896397 / 2 ^ 55], not 0.2. *)
Lemma get_analytics_rounds_the_float_quotient :
  ∃ r, AnalyticsDecorator_get_analytics 0%nat five_plays_world = Some (r, five_plays_world)
    ∧ a_play_count r = 5
    ∧ (a_total_listening_time r == 3602879701896397 # 4503599627370496)%Q
    ∧ (binary64 ((3 # 4) / inject_Z 5) == 5404319552844595 # 36028797018963968)%Q
    ∧ (binary64 ((3 # 4) / inject_Z 5) < 3 # 20)%Q
    ∧ (a_average_session_time r == 3602879701896397 # 36028797018963968)%Q
    ∧ nearest_binary64 (1 # 10) (a_average_session_time r).
Proof.
  eexists. split; [by apply run_get_analytics|].
  cbn [a_play_count a_total_listening_time a_average_session_time
       play_count total_listening_time].
  split; [done|]. split; [by vm_compute|]. split; [by vm_compute|].
  split; [by vm_compute|]. split; [by vm_compute|].
  eapply nearest_binary64_comp; [|apply binary64_nearest]. by vm_compute.
Qed.

(** ** Building playlists *)

Lemma valid_cells w q c : valid w q → c ∈ cells q → (c < length (w_stats w))%nat.
Proof.
  induction q as [name l|q IH|q IH n|q IH c']; cbn [valid cells]; try done.
  - by intros _ ?%elem_of_nil.
  - intros [Hc Hq] [->|Hin]%elem_of_cons; [by apply lookup_lt_is_Some|by apply IH].
Qed.

(** [AnalyticsDecorator(q)] allocates counters that stand at zero and that
    no decorator inside [q] shares. *)
Lemma new_AnalyticsDecorator_counted (q : Playlist) (w : world) :
  valid w q → coordinator_ok w →
  ∃ w', new_AnalyticsDecorator q w
        = Some (AnalyticsDecorator q (length (w_stats w)), w')
    ∧ (length (w_stats w) ∉ cells q)
    ∧ w_stats w' !! length (w_stats w) = Some (mkStats 0 0)
    ∧ valid w' q ∧ coordinator_ok w'.
Proof.
  intros Hv Hok. eexists. split; [reflexivity|]. cbn.
  split; [intros Hin; pose proof (valid_cells _ _ _ Hv Hin); lia|].
  split; [apply lookup_snoc_length|]. split; [|done].
  clear Hok. induction q as [name l|q IH|q IH n|q IH c]; cbn [valid] in *; try by apply IH.
  - done.
  - destruct Hv as [[s Hs] Hq]. split; [|by apply IH].
    exists s. by apply lookup_app_l_Some.
Qed.

(** [BasicPlaylist(name)] allocates an empty list. *)
Lemma new_BasicPlaylist_empty (name : string) (w : world) :
  ∃ w', new_BasicPlaylist name w = Some (BasicPlaylist name (length (w_lists w)), w')
    ∧ w_lists w' !! length (w_lists w) = Some []
    ∧ valid w' (BasicPlaylist name (length (w_lists w))).
Proof.
  eexists. split; [reflexivity|]. cbn.
  rewrite lookup_snoc_length. by eauto.
Qed.

(** [add_song], through any number of decorators, appends to the base
    playlist's list. *)
Lemma run_add_song (p : Playlist) (song : Song) (w : world) (xs : list Song) :
  w_lists w !! base_songs p = Some xs →
  ∃ w', add_song p song w = Some (tt, w')
    ∧ w_lists w' = <[base_songs p := xs ++ [song]]> (w_lists w)
    ∧ w_lists w' !! base_songs p = Some (xs ++ [song]).
Proof.
  induction p as [name l|q IH|q IH n|q IH c]; cbn [add_song base_songs]; try exact IH.
  intros H. unfold list_append.
  run_step (run_bind_Some _ _ _ _ _ (run_list_read _ _ _ H)).
  eexists. split; [reflexivity|]. cbn. split; [done|]. by eapply lists_insert_lookup.
Qed.

(** * Further properties *)

(** ** Pause, stop and status *)

Lemma run_set_playback_strategy w self a s :
  w_players w !! self = Some (Ready a) →
  MusicPlayer_set_playback_strategy self s w =
  Some (tt, set_players (<[self := Ready (with_playback_strategy (Some s) a)]>
                           (w_players w)) w).
Proof. intros H. by apply run_player_update. Qed.

Lemma run_pause w self a :
  w_players w !! self = Some (Ready a) →
  MusicPlayer_pause self w =
  Some (tt, if is_playing a
            then set_out (w_out w ++ [Print (MsgPaused (from_option title "Unknown"
                                                          (current_song a)))])
                   (set_players (<[self := Ready (with_is_playing false a)]>
                                   (w_players w)) w)
            else w).
Proof.
  intros H. unfold MusicPlayer_pause.
  run_step (run_player_get _ _ _ H).
  destruct (is_playing a); [|reflexivity].
  run_step (run_player_update _ _ _ _ H).
  set (w1 := set_players _ w).
  assert (H1 : w_players w1 !! self = Some (Ready (with_is_playing false a))).
  { cbn. by eapply players_insert_lookup. }
  run_step (run_player_get _ _ _ H1). reflexivity.
Qed.

Lemma run_stop w self a :
  w_players w !! self = Some (Ready a) →
  MusicPlayer_stop self w =
  Some (tt, set_out (w_out w ++ [Print MsgStopped])
              (set_players (<[self := Ready (mkPlayer None false (volume a)
                                               (playback_strategy a))]>
                              (w_players w)) w)).
Proof.
  intros H. unfold MusicPlayer_stop.
  run_step (run_player_update _ _ _ _ H).
  set (w1 := set_players _ w).
  assert (H1 : w_players w1 !! self = Some (Ready (with_is_playing false a))).
  { cbn. by eapply players_insert_lookup. }
  run_step (run_player_update _ _ _ _ H1).
  subst w1. cbn. rewrite list_insert_insert_eq. reflexivity.
Qed.

Lemma run_get_status w self a :
  w_players w !! self = Some (Ready a) →
  MusicPlayer_get_status self w = Some (status_text a, w).
Proof.
  intros H. unfold MusicPlayer_get_status.
  run_step (run_player_get _ _ _ H). reflexivity.
Qed.

(** X1: [pause] on a player that is not playing changes nothing and prints
    nothing.  On a playing one it clears [is_playing], keeps the current
    song, the volume and the strategy, and prints the song's title.  A
    second [pause] right after the first is therefore without effect. *)
Theorem pause_is_idempotent w self a :
  w_players w !! self = Some (Ready a) →
  (is_playing a = false → MusicPlayer_pause self w = Some (tt, w))
  ∧ (is_playing a = true →
     ∃ w1, MusicPlayer_pause self w = Some (tt, w1)
       ∧ w_players w1 !! self
         = Some (Ready (mkPlayer (current_song a) false (volume a) (playback_strategy a)))
       ∧ w_out w1 = w_out w ++ [Print (MsgPaused (from_option title "Unknown"
                                                    (current_song a)))])
  ∧ (MusicPlayer_pause self;; MusicPlayer_pause self) w = MusicPlayer_pause self w.
Proof.
  intros H. rewrite (run_pause _ _ _ H). split; [|split].
  - by intros ->.
  - intros ->. eexists. split; [reflexivity|]. cbn.
    split; [by eapply players_insert_lookup|done].
  - rewrite run_bind, (run_pause _ _ _ H).
    destruct (is_playing a) eqn:Hp.
    + set (w1 := set_out _ _).
      assert (H1 : w_players w1 !! self = Some (Ready (with_is_playing false a))).
      { cbn. by eapply players_insert_lookup. }
      by rewrite (run_pause _ _ _ H1).
    + by rewrite (run_pause _ _ _ H), Hp.
Qed.

(** X2: [stop] always clears the current song and [is_playing], keeps the
    volume and the strategy, and prints one line.  After it [pause] does
    nothing, and a second [stop] leaves the same attributes. *)
Theorem stop_resets_playback w self a :
  w_players w !! self = Some (Ready a) →
  ∃ w1, MusicPlayer_stop self w = Some (tt, w1)
    ∧ w_players w1 !! self
      = Some (Ready (mkPlayer None false (volume a) (playback_strategy a)))
    ∧ w_out w1 = w_out w ++ [Print MsgStopped]
    ∧ MusicPlayer_pause self w1 = Some (tt, w1)
    ∧ ∃ w2, MusicPlayer_stop self w1 = Some (tt, w2)
        ∧ w_players w2 = w_players w1.
Proof.
  intros H. rewrite (run_stop _ _ _ H). eexists. split; [reflexivity|].
  set (w1 := set_out _ _).
  assert (H1 : w_players w1 !! self
               = Some (Ready (mkPlayer None false (volume a) (playback_strategy a)))).
  { cbn. by eapply players_insert_lookup. }
  split; [exact H1|]. split; [done|].
  rewrite (run_pause _ _ _ H1), (run_stop _ _ _ H1). split; [done|].
  eexists. split; [reflexivity|]. cbn. by rewrite list_insert_insert_eq.
Qed.

(** X3: [set_playback_strategy s] followed by [play song] never reports a
    failure, whatever strategy, if any, was set before: the song is played
    with [s], and becomes the current song of a playing player whose volume
    is unchanged. *)
Theorem play_after_set_strategy w self a s song :
  w_players w !! self = Some (Ready a) →
  (MusicPlayer_set_playback_strategy self s;; MusicPlayer_play self song) w =
  Some (tt, set_out (w_out w ++ strategy_events s song)
              (set_players (<[self := Ready (mkPlayer (Some song) true (volume a) (Some s))]>
                              (w_players w)) w)).
Proof.
  intros H. run_step (run_set_playback_strategy _ _ _ s H).
  set (w1 := set_players _ w).
  assert (H1 : w_players w1 !! self = Some (Ready (with_playback_strategy (Some s) a))).
  { cbn. by eapply players_insert_lookup. }
  rewrite (run_play _ _ _ _ H1). subst w1. cbn.
  by rewrite list_insert_insert_eq.
Qed.

(** X4: [get_status] changes nothing.  Right after a [play] with a strategy
    set it reports "Playing" with the song's title; right after [stop] it
    reports "Stopped" and "None"; both times with the volume the player
    had. *)
Theorem get_status_follows_play_and_stop w self a song :
  w_players w !! self = Some (Ready a) →
  MusicPlayer_get_status self w = Some (status_text a, w)
  ∧ (is_Some (playback_strategy a) →
     ∃ w1, MusicPlayer_play self song w = Some (tt, w1)
       ∧ MusicPlayer_get_status self w1
         = Some ("Status: Playing | Song: " +:+ title song
                 +:+ " | Volume: " +:+ pretty (volume a), w1))
  ∧ (∃ w1, MusicPlayer_stop self w = Some (tt, w1)
       ∧ MusicPlayer_get_status self w1
         = Some ("Status: Stopped | Song: None | Volume: " +:+ pretty (volume a), w1)).
Proof.
  intros H. split; [by apply run_get_status|]. split.
  - intros [s Hs]. rewrite (run_play _ _ _ _ H). eexists. split; [reflexivity|].
    set (w1 := set_out _ _).
    assert (H1 : w_players w1 !! self = Some (Ready (played song a))).
    { cbn. by eapply players_insert_lookup. }
    rewrite (run_get_status _ _ _ H1). unfold played. by rewrite Hs.
  - rewrite (run_stop _ _ _ H). eexists. split; [reflexivity|].
    set (w1 := set_out _ _).
    assert (H1 : w_players w1 !! self
                 = Some (Ready (mkPlayer None false (volume a) (playback_strategy a)))).
    { cbn. by eapply players_insert_lookup. }
    by rewrite (run_get_status _ _ _ H1).
Qed.

Lemma pause_is_idempotent_witness :
  (MusicPlayer_pause 0%nat;; MusicPlayer_pause 0%nat) playing_world
  = MusicPlayer_pause 0%nat playing_world.
Proof.
  exact (proj2 (proj2 (pause_is_idempotent playing_world 0%nat _ eq_refl))).
Defined.

Lemma stop_resets_playback_witness :
  ∃ w1, MusicPlayer_stop 0%nat playing_world = Some (tt, w1)
    ∧ w_players w1 !! 0%nat = Some (Ready (mkPlayer None false 75 (Some MP3Strategy)))
    ∧ w_out w1 = [Print MsgStopped]
    ∧ MusicPlayer_pause 0%nat w1 = Some (tt, w1)
    ∧ ∃ w2, MusicPlayer_stop 0%nat w1 = Some (tt, w2)
        ∧ w_players w2 = w_players w1.
Proof. exact (stop_resets_playback playing_world 0%nat _ eq_refl). Defined.

Lemma play_after_set_strategy_witness :
  (MusicPlayer_set_playback_strategy 0%nat FLACStrategy;;
   MusicPlayer_play 0%nat song_b) playing_world
  = Some (tt, mkWorld (Some 0%nat)
                [Ready (mkPlayer (Some song_b) true 75 (Some FLACStrategy))] [] []
                (strategy_events FLACStrategy song_b) (λ k, k) 0%nat (λ _, 0%Q) 0%nat).
Proof.
  exact (play_after_set_strategy playing_world 0%nat _ FLACStrategy song_b eq_refl).
Defined.

Lemma get_status_follows_play_and_stop_witness :
  MusicPlayer_get_status 0%nat playing_world
  = Some ("Status: Playing | Song: Test Song 1 | Volume: 75", playing_world).
Proof.
  exact (proj1 (get_status_follows_play_and_stop playing_world 0%nat _ song_b eq_refl)).
Defined.

(** ** Accessing the singleton again *)

Lemma access_ready w self a :
  w_instance w = Some self → w_players w !! self = Some (Ready a) →
  access w = (self, w).
Proof. intros Hi Hp. unfold access. by rewrite Hi, Hp. Qed.

Lemma run_MusicPlayer_ready w self a :
  w_instance w = Some self → w_players w !! self = Some (Ready a) →
  MusicPlayer w = Some (self, w).
Proof.
  intros Hi Hp. rewrite run_MusicPlayer.
  - by rewrite (access_ready _ _ _ Hi Hp).
  - unfold coordinator_ok. rewrite Hi, Hp. by eexists.
Qed.

(** The exact effect of the method a call site invokes. *)
Lemma run_invoke w self a c :
  w_players w !! self = Some (Ready a) →
  ∃ evs, invoke self c w =
    Some (tt, set_out (w_out w ++ evs)
                (set_players (<[self := Ready (apply_call c a)]> (w_players w)) w)).
Proof.
  intros H. destruct c as [|s|song| | |v]; cbn [invoke apply_call].
  - exists []. rewrite app_nil_r, (list_insert_id _ _ _ H). by destruct w.
  - exists []. rewrite app_nil_r, (run_set_playback_strategy _ _ _ _ H). by destruct w.
  - eexists. by apply run_play.
  - rewrite (run_pause _ _ _ H). destruct (is_playing a).
    + by eexists.
    + exists []. rewrite app_nil_r, (list_insert_id _ _ _ H). by destruct w.
  - eexists. rewrite (run_stop _ _ _ H). reflexivity.
  - eexists. rewrite (run_set_volume _ _ _ _ H), max_min_clamp. reflexivity.
Qed.

(** X5: the first [MusicPlayer()] yields an initialised object; from then on
    [MusicPlayer()] returns that object and changes nothing at all: no
    attribute is reset and no line is printed, also after any method was
    called on the object in between. *)
Theorem access_again_changes_nothing (w : world) :
  coordinator_ok w →
  ∃ p w1 a,
    MusicPlayer w = Some (p, w1)
    ∧ w_players w1 !! p = Some (Ready a)
    ∧ MusicPlayer w1 = Some (p, w1)
    ∧ ∀ c, ∃ w2, invoke p c w1 = Some (tt, w2)
         ∧ w_players w2 !! p = Some (Ready (apply_call c a))
         ∧ MusicPlayer w2 = Some (p, w2).
Proof.
  intros Hok. destruct (access_spec w Hok) as (Hi & Hp & _).
  exists (access w).1, (access w).2, (coordinator_attrs w).
  split; [by apply run_MusicPlayer|]. split; [done|].
  split; [by eapply run_MusicPlayer_ready|].
  intros c. destruct (run_invoke _ _ _ c Hp) as [evs Hr].
  eexists. split; [exact Hr|].
  assert (H2 : <[(access w).1 := Ready (apply_call c (coordinator_attrs w))]>
                 (w_players (access w).2) !! (access w).1
               = Some (Ready (apply_call c (coordinator_attrs w)))).
  { by eapply players_insert_lookup. }
  split; [exact H2|]. by eapply run_MusicPlayer_ready.
Qed.

Lemma access_again_changes_nothing_witness :
  ∃ p w1 a,
    MusicPlayer (initial_world (λ k, k) (λ _, 0%Q)) = Some (p, w1)
    ∧ w_players w1 !! p = Some (Ready a)
    ∧ MusicPlayer w1 = Some (p, w1)
    ∧ ∀ c, ∃ w2, invoke p c w1 = Some (tt, w2)
         ∧ w_players w2 !! p = Some (Ready (apply_call c a))
         ∧ MusicPlayer w2 = Some (p, w2).
Proof. exact (access_again_changes_nothing (initial_world (λ k, k) (λ _, 0%Q)) I). Defined.

(** ** What every sequence of calls keeps *)

Lemma coordinator_attrs_ready w self a :
  w_instance w = Some self → w_players w !! self = Some (Ready a) →
  coordinator_attrs w = a.
Proof. intros Hi Hp. unfold coordinator_attrs. by rewrite Hi, Hp. Qed.

Lemma call_site_attrs w c :
  coordinator_ok w →
  ∃ w', call_site c w = Some ((access w).1, w')
    ∧ coordinator_ok w'
    ∧ coordinator_attrs w' = apply_call c (coordinator_attrs w).
Proof.
  intros Hok. unfold call_site.
  run_step (run_MusicPlayer _ Hok).
  destruct (access_spec w Hok) as (Hi & Hp & _).
  destruct (run_invoke _ _ _ c Hp) as [evs Hr]. run_step Hr.
  eexists. split; [reflexivity|].
  set (w' := set_out _ _).
  assert (Hp' : w_players w' !! (access w).1
                = Some (Ready (apply_call c (coordinator_attrs w)))).
  { cbn. by eapply players_insert_lookup. }
  split.
  - unfold coordinator_ok. change (w_instance w') with (w_instance (access w).2).
    rewrite Hi, Hp'. by eexists.
  - by apply (coordinator_attrs_ready _ (access w).1).
Qed.

Lemma call_sites_attrs cs w :
  coordinator_ok w →
  ∃ ps w', call_sites cs w = Some (ps, w')
    ∧ coordinator_ok w'
    ∧ coordinator_attrs w' = foldl (λ a c, apply_call c a) (coordinator_attrs w) cs.
Proof.
  revert w. induction cs as [|c cs IH]; intros w Hok.
  - by exists [], w.
  - destruct (call_site_attrs w c Hok) as (w1 & Hr1 & Hok1 & Ha1).
    destruct (IH w1 Hok1) as (ps & w' & Hr' & Hok' & Ha').
    exists ((access w).1 :: ps), w'. cbn [call_sites foldl].
    run_step Hr1. run_step Hr'. split; [reflexivity|]. split; [done|].
    by rewrite Ha', Ha1.
Qed.

(** A property of the attributes that every method keeps holds after any
    sequence of call sites. *)
Lemma call_sites_keep (P : player_attrs → Prop) cs w :
  (∀ c a, P a → P (apply_call c a)) →
  coordinator_ok w → P (coordinator_attrs w) →
  ∃ ps w', call_sites cs w = Some (ps, w') ∧ P (coordinator_attrs w').
Proof.
  intros Hkeep Hok HP.
  destruct (call_sites_attrs cs w Hok) as (ps & w' & Hr & _ & Ha).
  exists ps, w'. split; [done|]. rewrite Ha. clear Hr Ha.
  revert HP. generalize (coordinator_attrs w).
  induction cs as [|c cs IH]; intros a HP; [done|]. cbn. by apply IH, Hkeep.
Qed.

(** X6: the volume stays within 0..100.  If it is in that range (as it is
    on a new player, at 50), it is in that range after any sequence of
    accesses, strategy changes, plays, pauses, stops and volume settings,
    whatever values are passed to [set_volume]. *)
Theorem volume_stays_in_range (cs : list call) (w : world) :
  coordinator_ok w →
  0 ≤ volume (coordinator_attrs w) ≤ 100 →
  ∃ ps w', call_sites cs w = Some (ps, w')
    ∧ 0 ≤ volume (coordinator_attrs w') ≤ 100
    ∧ ∀ self a, w_instance w' = Some self → w_players w' !! self = Some (Ready a) →
        0 ≤ volume a ≤ 100.
Proof.
  intros Hok Hv.
  destruct (call_sites_keep (λ a, 0 ≤ volume a ≤ 100) cs w) as (ps & w' & Hr & Hv');
    [|done|done|].
  { intros c a Ha. destruct c; cbn; try done.
    - unfold played. by destruct (playback_strategy a).
    - by destruct (is_playing a).
    - lia. }
  exists ps, w'. split; [done|]. split; [done|].
  intros self a Hi Hp. by rewrite (coordinator_attrs_ready _ _ _ Hi Hp) in Hv'.
Qed.

Lemma volume_stays_in_range_witness :
  ∃ ps w', call_sites [SetVolume 150; Play song_a; SetVolume (-5); Pause]
             (initial_world (λ k, k) (λ _, 0%Q)) = Some (ps, w')
    ∧ 0 ≤ volume (coordinator_attrs w') ≤ 100
    ∧ ∀ self a, w_instance w' = Some self → w_players w' !! self = Some (Ready a) →
        0 ≤ volume a ≤ 100.
Proof.
  exact (volume_stays_in_range [SetVolume 150; Play song_a; SetVolume (-5); Pause]
           (initial_world (λ k, k) (λ _, 0%Q)) I ltac:(cbn; lia)).
Defined.

(** X7: a playing player has a current song.  If that holds (as it does on
    a new player, which is not playing), it holds after any sequence of
    accesses, strategy changes, plays, pauses, stops and volume settings.
    A [pause] after such a sequence therefore either does nothing or prints
    the title of the current song, never the placeholder for a missing
    one. *)
Theorem playing_has_current_song (cs : list call) (w : world) :
  coordinator_ok w →
  (is_playing (coordinator_attrs w) = true → is_Some (current_song (coordinator_attrs w))) →
  ∃ ps w', call_sites cs w = Some (ps, w')
    ∧ ∀ self a, w_instance w' = Some self → w_players w' !! self = Some (Ready a) →
        (is_playing a = true → is_Some (current_song a))
        ∧ (MusicPlayer_pause self w' = Some (tt, w')
           ∨ ∃ song w2, current_song a = Some song
               ∧ MusicPlayer_pause self w' = Some (tt, w2)
               ∧ w_out w2 = w_out w' ++ [Print (MsgPaused (title song))]).
Proof.
  intros Hok Hv.
  cut (∃ ps w', call_sites cs w = Some (ps, w')
         ∧ ∀ self a, w_instance w' = Some self → w_players w' !! self = Some (Ready a) →
             is_playing a = true → is_Some (current_song a)).
  { intros (ps & w' & Hr & Hinv). exists ps, w'. split; [done|].
    intros self a Hi Hp. split; [by eapply Hinv|].
    rewrite (run_pause _ _ _ Hp). destruct (is_playing a) eqn:Hpl; [right|by left].
    destruct (Hinv self a Hi Hp Hpl) as [song Hs].
    exists song. eexists. split; [done|]. split; [reflexivity|].
    cbn. by rewrite Hs. }
  destruct (call_sites_keep (λ a, is_playing a = true → is_Some (current_song a)) cs w)
    as (ps & w' & Hr & Hv'); [|done|done|].
  { intros c a Ha. destruct c; cbn; try done.
    - unfold played. destruct (playback_strategy a); [by eauto|done].
    - destruct (is_playing a) eqn:Hp; [done|]. by rewrite Hp. }
  exists ps, w'. split; [done|].
  intros self a Hi Hp. by rewrite (coordinator_attrs_ready _ _ _ Hi Hp) in Hv'.
Qed.

Lemma playing_has_current_song_witness :
  ∃ ps w', call_sites [SetStrategy MP3Strategy; Play song_a; Pause; Stop; Play song_b]
             (initial_world (λ k, k) (λ _, 0%Q)) = Some (ps, w')
    ∧ ∀ self a, w_instance w' = Some self → w_players w' !! self = Some (Ready a) →
        (is_playing a = true → is_Some (current_song a))
        ∧ (MusicPlayer_pause self w' = Some (tt, w')
           ∨ ∃ song w2, current_song a = Some song
               ∧ MusicPlayer_pause self w' = Some (tt, w2)
               ∧ w_out w2 = w_out w' ++ [Print (MsgPaused (title song))]).
Proof.
  exact (playing_has_current_song
           [SetStrategy MP3Strategy; Play song_a; Pause; Stop; Play song_b]
           (initial_world (λ k, k) (λ _, 0%Q)) I ltac:(done)).
Defined.

(** ** Adding songs and listing them *)

Lemma run_add_song_exact (p : Playlist) (song : Song) (w : world) (xs : list Song) :
  w_lists w !! base_songs p = Some xs →
  add_song p song w =
  Some (tt, set_out (w_out w ++ [Print (MsgAdded (title song) (base_name p))])
              (set_lists (<[base_songs p := xs ++ [song]]> (w_lists w)) w)).
Proof.
  induction p as [name l|q IH|q IH n|q IH c];
    cbn [add_song base_songs base_name]; try exact IH.
  intros H. unfold list_append.
  by run_step (run_bind_Some _ _ _ _ _ (run_list_read _ _ _ H)).
Qed.

(** X8: [add_song] through any stack of decorators appends the song at the
    end of the base playlist's list and prints one line naming that
    playlist.  [get_songs] through any other stack over the same base
    playlist then returns a new list object holding the old songs, in
    order, followed by the new one. *)
Theorem add_song_then_get_songs (p1 p2 : Playlist) (song : Song) (w : world)
    (xs : list Song) :
  base_songs p1 = base_songs p2 →
  w_lists w !! base_songs p1 = Some xs →
  ∃ l w', (add_song p1 song;; get_songs p2) w = Some (l, w')
    ∧ w_lists w' !! base_songs p1 = Some (xs ++ [song])
    ∧ w_lists w' !! l = Some (xs ++ [song])
    ∧ l ≠ base_songs p1
    ∧ length (w_lists w') = S (length (w_lists w))
    ∧ w_out w' = w_out w ++ [Print (MsgAdded (title song) (base_name p1))].
Proof.
  intros Hb H. run_step (run_add_song_exact p1 song w xs H).
  set (w1 := set_out _ _).
  assert (H1 : w_lists w1 !! base_songs p2 = Some (xs ++ [song])).
  { cbn. rewrite <- Hb. by eapply lists_insert_lookup. }
  rewrite (run_get_songs p2 w1 _ H1).
  eexists _, _. split; [reflexivity|]. cbn.
  pose proof (lookup_lt_Some _ _ _ H) as Hlt.
  split; [apply lookup_app_l_Some; by eapply lists_insert_lookup|].
  split; [apply lookup_snoc_length|].
  rewrite length_app, !length_insert. cbn.
  split; [lia|]. split; [lia|done].
Qed.

Lemma add_song_then_get_songs_witness :
  ∃ l w', (add_song (RepeatDecorator (BasicPlaylist "My Favorites" 0%nat) 2) song_b;;
           get_songs (ShuffleDecorator (BasicPlaylist "My Favorites" 0%nat)))
            two_songs_world = Some (l, w')
    ∧ w_lists w' !! 0%nat = Some ([song_a; song_b] ++ [song_b])
    ∧ w_lists w' !! l = Some ([song_a; song_b] ++ [song_b])
    ∧ l ≠ 0%nat
    ∧ length (w_lists w') = S (length (w_lists two_songs_world))
    ∧ w_out w' = w_out two_songs_world
                   ++ [Print (MsgAdded (title song_b) "My Favorites")].
Proof.
  exact (add_song_then_get_songs
           (RepeatDecorator (BasicPlaylist "My Favorites" 0%nat) 2)
           (ShuffleDecorator (BasicPlaylist "My Favorites" 0%nat))
           song_b two_songs_world [song_a; song_b] eq_refl eq_refl).
Defined.

(** X9: the list [get_songs] returns is a snapshot.  It is a new object
    with the songs the playlist holds at that moment; appending to it does
    not change the playlist, and a later [add_song] on the playlist does
    not change it. *)
Theorem get_songs_is_a_snapshot (p : Playlist) (w : world) (xs : list Song) :
  w_lists w !! base_songs p = Some xs →
  ∃ l w1, get_songs p w = Some (l, w1)
    ∧ l ≠ base_songs p
    ∧ w_lists w1 !! l = Some xs
    ∧ w_lists w1 !! base_songs p = Some xs
    ∧ (∀ song, ∃ w2, list_append l song w1 = Some (tt, w2)
         ∧ w_lists w2 !! l = Some (xs ++ [song])
         ∧ w_lists w2 !! base_songs p = Some xs)
    ∧ (∀ song, ∃ w2, add_song p song w1 = Some (tt, w2)
         ∧ w_lists w2 !! l = Some xs
         ∧ w_lists w2 !! base_songs p = Some (xs ++ [song])).
Proof.
  intros H. rewrite (run_get_songs p w xs H).
  pose proof (lookup_lt_Some _ _ _ H) as Hlt.
  set (w1 := set_lists _ w).
  assert (Hl : w_lists w1 !! length (w_lists w) = Some xs) by apply lookup_snoc_length.
  assert (Hb : w_lists w1 !! base_songs p = Some xs) by (by apply lookup_app_l_Some).
  exists (length (w_lists w)), w1. split; [done|]. split; [lia|].
  split; [done|]. split; [done|]. split.
  - intros song. unfold list_append. run_step (run_list_read _ _ _ Hl).
    eexists. split; [reflexivity|]. cbn -[w1].
    split; [by eapply lists_insert_lookup|].
    rewrite list_lookup_insert_ne by lia. done.
  - intros song. rewrite (run_add_song_exact p song w1 xs Hb).
    eexists. split; [reflexivity|]. cbn -[w1].
    split; [|by eapply lists_insert_lookup].
    rewrite list_lookup_insert_ne by lia. done.
Qed.

Lemma get_songs_is_a_snapshot_witness :
  ∃ l w1, get_songs (ShuffleDecorator (BasicPlaylist "My Favorites" 0%nat))
            two_songs_world = Some (l, w1)
    ∧ l ≠ 0%nat
    ∧ w_lists w1 !! l = Some [song_a; song_b]
    ∧ w_lists w1 !! 0%nat = Some [song_a; song_b]
    ∧ (∀ song, ∃ w2, list_append l song w1 = Some (tt, w2)
         ∧ w_lists w2 !! l = Some ([song_a; song_b] ++ [song])
         ∧ w_lists w2 !! 0%nat = Some [song_a; song_b])
    ∧ (∀ song, ∃ w2,
         add_song (ShuffleDecorator (BasicPlaylist "My Favorites" 0%nat)) song w1
           = Some (tt, w2)
         ∧ w_lists w2 !! l = Some [song_a; song_b]
         ∧ w_lists w2 !! 0%nat = Some ([song_a; song_b] ++ [song])).
Proof.
  exact (get_songs_is_a_snapshot (ShuffleDecorator (BasicPlaylist "My Favorites" 0%nat))
           two_songs_world [song_a; song_b] eq_refl).
Defined.

(** ** What [play_all] leaves alone *)

Lemma later_refl w : later w w.
Proof. split; [exists []; by rewrite app_nil_r|done]. Qed.

Lemma later_trans w1 w2 w3 : later w1 w2 → later w2 w3 → later w1 w3.
Proof.
  intros ([e1 Ho1] & Hc1 & Hp1 & Hr1 & Hq1) ([e2 Ho2] & Hc2 & Hp2 & Hr2 & Hq2).
  split; [exists (e1 ++ e2); by rewrite Ho2, Ho1, app_assoc|].
  split; [congruence|]. split; [lia|]. split; [congruence|lia].
Qed.

Lemma later_print w w' evs : later w w' → later w (set_out (w_out w' ++ evs) w').
Proof.
  intros ([e1 Ho1] & Hrest).
  split; [exists (e1 ++ evs); cbn; by rewrite Ho1, app_assoc|done].
Qed.

Lemma later_after_playing xs w : coordinator_ok w → later w (after_playing xs w).
Proof.
  intros Hok.
  destruct (after_playing_spec xs w Hok)
    as (Hout & _ & _ & _ & _ & _ & Hr & Hrp & Hc & Hcp).
  split; [by eexists|]. rewrite Hr, Hrp, Hc, Hcp. done.
Qed.

(** One round of the repetition loop keeps what the wrapped [play_all] and
    printing keep. *)
Lemma repeat_round_appends (I : world → Prop) (inner : M unit) (n i : Z) :
  (∀ w evs, I w → I (set_out (w_out w ++ evs) w)) →
  (∀ w, I w → ∃ w', inner w = Some (tt, w') ∧ I w') →
  ∀ w, I w →
    ∃ w', (print (MsgRound (i + 1));;
           inner;;
           if decide (i < n - 1) then print MsgRepeating;; sleep (3 # 10) else mret tt) w
          = Some (tt, w') ∧ I w'.
Proof.
  intros Hout Hinner w Hw.
  destruct (Hinner (set_out (w_out w ++ [Print (MsgRound (i + 1))]) w)) as (w1 & Hr & H1).
  { by apply Hout. }
  unfold print, sleep, modify, mbind, M_bind. cbn. rewrite Hr.
  destruct (decide (i < n - 1)); eexists; (split; [reflexivity|]); [|done].
  apply (Hout (set_out (w_out w1 ++ [Print MsgRepeating]) w1) [Sleep (3 # 10)]).
  by apply Hout.
Qed.

Lemma play_all_later (p : Playlist) (w : world) :
  valid w p → coordinator_ok w →
  ∃ w', play_all p w = Some (tt, w') ∧ grows (cells p) w w' ∧ later w w'.
Proof.
  revert w. induction p as [name l|q IH|q IH n|q IH c]; intros w Hv Hok.
  - destruct Hv as [xs Hxs].
    eexists. split; [by apply run_basic_play_all|].
    set (w0 := set_out _ w).
    destruct (after_playing_spec xs w0) as (_ & _ & _ & Hok' & Hl & Hs & _); [done|].
    split; [by apply grows_same|].
    eapply later_trans; [|by apply later_after_playing].
    apply later_print, later_refl.
  - destruct (valid_base_songs w q Hv) as [xs Hxs].
    destruct (run_shuffle_play_all q w xs Hxs Hok) as (ys & _ & Hrun).
    eexists. split; [exact Hrun|].
    destruct (after_playing_spec ys (shuffled_world xs ys w))
      as (_ & _ & _ & Hok' & Hl & Hs & _); [done|].
    split; [split; [exists [ys]; by rewrite Hl|by rewrite Hs]|].
    eapply later_trans; [|by apply later_after_playing].
    split; [by eexists|]. cbn. split_and!; try done. lia.
  - cbn [play_all cells]. unfold RepeatDecorator_play_all. rewrite run_bind.
    set (w0 := set_out (w_out w ++ [Print (MsgRepeatEnabled n)]) w).
    change (print (MsgRepeatEnabled n) w) with (Some (tt, w0)). cbn match.
    set (I := λ w1, valid w1 q ∧ grows (cells q) w w1 ∧ later w w1).
    assert (HI0 : I w0).
    { split; [|split; [by apply grows_set_out, grows_refl|apply later_print, later_refl]].
      eapply valid_grows; [exact Hv|]. by apply (grows_set_out []), grows_refl. }
    assert (H : ∃ w', for_ (range n) (λ i,
                print (MsgRound (i + 1));;
                play_all q;;
                if decide (i < n - 1) then print MsgRepeating;; sleep (3 # 10)
                else mret tt) w0 = Some (tt, w') ∧ I w').
    { apply for_invariant; [|exact HI0].
      intros i w1 H1. apply (repeat_round_appends I); [| |done].
      - intros w2 o (Hv2 & Hg2 & Hl2).
        split; [|split; [by apply grows_set_out|by apply later_print]].
        eapply valid_grows; [exact Hv2|]. apply (grows_set_out []), grows_refl, Hg2.
      - intros w2 (Hv2 & Hg2 & Hl2).
        destruct (IH w2 Hv2) as (w3 & Hr3 & Hg3 & Hl3); [apply Hg2|].
        exists w3. split; [done|].
        split; [by eapply valid_grows|].
        split; [by eapply grows_trans|by eapply later_trans]. }
    destruct H as (w' & Hr & _ & Hg & Hl). by exists w'.
  - destruct Hv as [Hc Hv]. cbn [play_all cells].
    set (wa := set_clock_pos (S (w_clock_pos w))
                 (set_out (w_out w ++ [Print MsgAnalyticsEnabled]) w)).
    assert (Hga : grows (cells q) w wa) by (by apply grows_same).
    assert (Hla : later w wa).
    { split; [by eexists|]. cbn. split_and!; try done. lia. }
    destruct (IH wa) as (w1 & Hr1 & Hg1 & Hl1); [by eapply valid_grows|done|].
    assert (Hc1 : is_Some (w_stats w1 !! c)).
    { apply lookup_lt_is_Some. destruct Hg1 as (_ & -> & _).
      by apply lookup_lt_is_Some. }
    destruct Hc1 as [s1 Hs1].
    eexists. split; [by eapply run_analytics_play_all|]. split.
    + eapply grows_trans; [eapply grows_mono; [|exact Hg1]|].
      * intros c' Hc'. by right.
      * apply grows_analytics_finish; [done|apply Hg1].
    + eapply later_trans; [exact Hla|]. eapply later_trans; [exact Hl1|].
      split; [by eexists|]. cbn. split_and!; try done. lia.
Qed.

(** X10: [play_all] on any well-formed stack of decorators returns without
    raising.  It only appends to the log; every list object, so every
    playlist's membership and order, is as before; no counters are
    allocated and only the stack's own counters can change; and the stack
    is still well formed, so it can be played again. *)
Theorem play_all_keeps_membership (p : Playlist) (w : world) :
  valid w p → coordinator_ok w →
  ∃ w', play_all p w = Some (tt, w')
    ∧ (∀ l xs, w_lists w !! l = Some xs → w_lists w' !! l = Some xs)
    ∧ (∃ evs, w_out w' = w_out w ++ evs)
    ∧ length (w_stats w') = length (w_stats w)
    ∧ (∀ c, c ∉ cells p → w_stats w' !! c = w_stats w !! c)
    ∧ valid w' p ∧ coordinator_ok w'.
Proof.
  intros Hv Hok.
  destruct (play_all_later p w Hv Hok) as (w' & Hr & Hg & Hevs & _).
  exists w'. split; [done|].
  pose proof (valid_grows _ _ _ _ Hv Hg) as Hv'.
  destruct Hg as ([new Hl] & Hn & Hs & Hok').
  split; [intros l xs Hx; rewrite Hl; by apply lookup_app_l_Some|].
  by split_and!.
Qed.

Lemma play_all_keeps_membership_witness :
  ∃ w', play_all (RepeatDecorator (ShuffleDecorator tracked_favorites) 2) analytics_world
        = Some (tt, w')
    ∧ (∀ l xs, w_lists analytics_world !! l = Some xs → w_lists w' !! l = Some xs)
    ∧ (∃ evs, w_out w' = w_out analytics_world ++ evs)
    ∧ length (w_stats w') = length (w_stats analytics_world)
    ∧ (∀ c, c ∉ [0%nat] → w_stats w' !! c = w_stats analytics_world !! c)
    ∧ valid w' (RepeatDecorator (ShuffleDecorator tracked_favorites) 2)
    ∧ coordinator_ok w'.
Proof.
  exact (play_all_keeps_membership
           (RepeatDecorator (ShuffleDecorator tracked_favorites) 2) analytics_world
           (conj (ex_intro _ (mkStats 0 0) eq_refl) (ex_intro _ [song_a; song_b] eq_refl))
           I).
Defined.

(** ** One analytics session *)



(** X12: two [AnalyticsDecorator]s built over the same playlist have
    separate counters: after any number [N] of [play_all] calls on the
    first, the first has counted [N] plays and the second none. *)
Theorem analytics_wrappers_count_separately (q : Playlist) (w : world) :
  valid w q → coordinator_ok w →
  ∃ c1 c2 w2,
    (a1 ← new_AnalyticsDecorator q; a2 ← new_AnalyticsDecorator q; mret (a1, a2)) w
      = Some ((AnalyticsDecorator q c1, AnalyticsDecorator q c2), w2)
    ∧ c1 ≠ c2
    ∧ ∀ N, ∃ w' t,
        for_ (seq 0 N) (λ _, play_all (AnalyticsDecorator q c1)) w2 = Some (tt, w')
        ∧ w_stats w' !! c1 = Some (mkStats (Z.of_nat N) t)
        ∧ w_stats w' !! c2 = Some (mkStats 0 0).
Proof.
  intros Hv Hok.
  destruct (new_AnalyticsDecorator_counted q w Hv Hok) as (w1 & Hr1 & Hc1 & Hs1 & Hv1 & Hok1).
  destruct (new_AnalyticsDecorator_counted q w1 Hv1 Hok1) as (w2 & Hr2 & Hc2 & Hs2 & Hv2 & Hok2).
  assert (Hlen : length (w_stats w1) = S (length (w_stats w))).
  { injection Hr1 as <-. cbn. rewrite length_app. cbn. lia. }
  assert (Hs12 : w_stats w2 !! length (w_stats w) = Some (mkStats 0 0)).
  { injection Hr2 as <-. cbn. by apply lookup_app_l_Some. }
  exists (length (w_stats w)), (length (w_stats w1)), w2.
  split; [by run_step Hr1; run_step Hr2|]. split; [lia|].
  intros N.
  set (a1 := AnalyticsDecorator q (length (w_stats w))).
  destruct (counted_plays q _ Hc1 N 0 0 w2) as (w' & Hr & _ & _ & t & Ht).
  { split; [done|]. split; [done|]. by eexists. }
  destruct (for_invariant
              (λ w3, valid w3 q ∧ grows (length (w_stats w) :: cells q) w2 w3)
              (seq 0 N) (λ _, play_all a1)) with (w := w2) as (w'' & Hr'' & _ & Hg).
  { intros _ w3 [Hv3 Hg3].
    assert (is_Some (w_stats w3 !! length (w_stats w))) as [s3 Hs3].
    { apply lookup_lt_is_Some. destruct Hg3 as (_ & -> & _). by eapply lookup_lt_Some. }
    destruct (analytics_play_all_counts q _ w3 s3 Hv3 ltac:(apply Hg3) Hc1 Hs3)
      as (w4 & d & Hr4 & _ & Hg4).
    exists w4. split; [done|]. split; [by eapply valid_grows|by eapply grows_trans]. }
  { split; [done|]. by apply grows_refl. }
  unfold a1 in Hr''. rewrite Hr in Hr''. injection Hr'' as <-.
  exists w', t. split; [done|]. rewrite Z.add_0_l in Ht. split; [done|].
  destruct Hg as (_ & _ & Hfr & _). rewrite Hfr; [done|].
  intros [Heq|Hin]%elem_of_cons; [lia|].
  pose proof (valid_cells _ _ _ Hv1 Hin). lia.
Qed.

Lemma analytics_wrappers_count_separately_witness :
  ∃ c1 c2 w2,
    (a1 ← new_AnalyticsDecorator (BasicPlaylist "My Favorites" 0%nat);
     a2 ← new_AnalyticsDecorator (BasicPlaylist "My Favorites" 0%nat);
     mret (a1, a2)) two_songs_world
      = Some ((AnalyticsDecorator (BasicPlaylist "My Favorites" 0%nat) c1,
               AnalyticsDecorator (BasicPlaylist "My Favorites" 0%nat) c2), w2)
    ∧ c1 ≠ c2
    ∧ ∀ N, ∃ w' t,
        for_ (seq 0 N)
          (λ _, play_all (AnalyticsDecorator (BasicPlaylist "My Favorites" 0%nat) c1)) w2
          = Some (tt, w')
        ∧ w_stats w' !! c1 = Some (mkStats (Z.of_nat N) t)
        ∧ w_stats w' !! c2 = Some (mkStats 0 0).
Proof.
  exact (analytics_wrappers_count_separately (BasicPlaylist "My Favorites" 0%nat)
           two_songs_world (ex_intro _ [song_a; song_b] eq_refl) I).
Defined.

(** ** Shuffling again, and shuffling little *)

(** A loop whose every round takes the invariant from [k] to [S k] takes it
    forward by the number of rounds. *)
Lemma for_counting {A} (I : nat → world → Prop) (xs : list A) (body : A → M unit) :
  (∀ x k w, I k w → ∃ w', body x w = Some (tt, w') ∧ I (S k) w') →
  ∀ k w, I k w → ∃ w', for_ xs body w = Some (tt, w') ∧ I (k + length xs)%nat w'.
Proof.
  intros Hbody. induction xs as [|x xs IH]; intros k w Hw.
  { exists w. by rewrite Nat.add_0_r. }
  destruct (Hbody x k w Hw) as (w1 & Hr & H1).
  destruct (IH (S k) w1 H1) as (w' & Hr' & H').
  exists w'. rewrite run_for_cons, Hr. split; [done|].
  by replace (k + length (x :: xs))%nat with (S k + length xs)%nat by (cbn; lia).
Qed.

(** X13: repetition around a shuffle shuffles anew on every pass.  With
    [repeat_count] [n], [play_all] on [RepeatDecorator (ShuffleDecorator q) n]
    returns having made [n] new lists (none when [n <= 0]), each a
    permutation of the base playlist's songs, and having drawn from the
    random source once more for every exchange of every pass; the lists
    that were in the store are unchanged. *)
Theorem repeat_reshuffles_every_pass (q : Playlist) (n : Z) (w : world) (xs : list Song) :
  w_lists w !! base_songs q = Some xs →
  coordinator_ok w →
  ∃ w' copies,
    play_all (RepeatDecorator (ShuffleDecorator q) n) w = Some (tt, w')
    ∧ w_lists w' = w_lists w ++ copies
    ∧ length copies = Z.to_nat n
    ∧ Forall (λ ys, ys ≡ₚ xs) copies
    ∧ w_rand_pos w' = (w_rand_pos w + Z.to_nat n * (length xs - 1))%nat.
Proof.
  intros Hl Hok. cbn [play_all]. unfold RepeatDecorator_play_all. rewrite run_bind.
  set (w0 := set_out (w_out w ++ [Print (MsgRepeatEnabled n)]) w).
  change (print (MsgRepeatEnabled n) w) with (Some (tt, w0)). cbn match.
  set (I := λ (k : nat) (w1 : world),
         coordinator_ok w1
         ∧ ∃ copies, w_lists w1 = w_lists w ++ copies
             ∧ length copies = k
             ∧ Forall (λ ys, ys ≡ₚ xs) copies
             ∧ w_rand_pos w1 = (w_rand_pos w + k * (length xs - 1))%nat).
  assert (HI0 : I 0%nat w0).
  { split; [done|]. exists []. cbn. rewrite app_nil_r. split_and!; try done; lia. }
  assert (H : ∃ w', for_ (range n) (λ i,
              print (MsgRound (i + 1));;
              ShuffleDecorator_play_all (get_songs (ShuffleDecorator q));;
              if decide (i < n - 1) then print MsgRepeating;; sleep (3 # 10)
              else mret tt) w0 = Some (tt, w') ∧ I (0 + length (range n))%nat w').
  { apply (for_counting I); [|exact HI0].
    intros i k w1 (Hok1 & copies & Hl1 & Hlen & Hperm & Hrand).
    set (w1' := set_out (w_out w1 ++ [Print (MsgRound (i + 1))]) w1).
    destruct (run_shuffle_play_all q w1' xs) as (ys & Hys & Hrun); [|done|].
    { cbn. rewrite Hl1. by apply lookup_app_l_Some. }
    change (play_all (ShuffleDecorator q) w1')
      with (ShuffleDecorator_play_all (get_songs (ShuffleDecorator q)) w1') in Hrun.
    destruct (after_playing_spec ys (shuffled_world xs ys w1'))
      as (_ & _ & _ & Hok2 & Hl2 & _ & _ & Hrp2 & _); [done|].
    set (w2 := after_playing ys (shuffled_world xs ys w1')) in *.
    assert (HI2 : I (S k) w2).
    { split; [done|]. exists (copies ++ [ys]).
      rewrite Hl2, Hrp2. cbn. rewrite Hl1, Hrand, length_app, Forall_app, Forall_singleton.
      cbn. split_and!; try done; try lia; by rewrite app_assoc. }
    rewrite run_bind.
    change (print (MsgRound (i + 1)) w1) with (Some (tt, w1')). cbn match.
    rewrite run_bind, Hrun. cbn match.
    destruct (decide (i < n - 1)); eexists; (split; [reflexivity|exact HI2]). }
  destruct H as (w' & Hr & _ & copies & Hl' & Hlen & Hperm & Hrand).
  unfold range in Hlen, Hrand. rewrite length_seqZ in Hlen, Hrand.
  exists w', copies. by split_and!.
Qed.

Lemma repeat_reshuffles_every_pass_witness :
  ∃ w' copies,
    play_all (RepeatDecorator (ShuffleDecorator (BasicPlaylist "My Favorites" 0%nat)) 2)
      two_songs_world = Some (tt, w')
    ∧ w_lists w' = w_lists two_songs_world ++ copies
    ∧ length copies = Z.to_nat 2
    ∧ Forall (λ ys, ys ≡ₚ [song_a; song_b]) copies
    ∧ w_rand_pos w' = (w_rand_pos two_songs_world + Z.to_nat 2 * (2 - 1))%nat.
Proof.
  exact (repeat_reshuffles_every_pass (BasicPlaylist "My Favorites" 0%nat) 2
           two_songs_world [song_a; song_b] eq_refl I).
Defined.

(** X14: a shuffle of no song or of one song has nothing to exchange:
    [play_all] on the [ShuffleDecorator] draws no random value and plays the
    songs as the playlist holds them. *)
Theorem shuffle_of_at_most_one_song (q : Playlist) (w : world) (xs : list Song) :
  w_lists w !! base_songs q = Some xs →
  coordinator_ok w →
  (length xs ≤ 1)%nat →
  ∃ w', play_all (ShuffleDecorator q) w = Some (tt, w')
    ∧ w_rand_pos w' = w_rand_pos w
    ∧ w_lists w' = w_lists w ++ [xs]
    ∧ w_out w' = w_out w ++ [Print MsgShuffleEnabled; Print MsgPlayingShuffled]
                   ++ coordinator_events w
                   ++ concat (play_one_events (playback_strategy (coordinator_attrs w)) <$> xs).
Proof.
  intros Hl Hok Hlen.
  destruct (run_shuffle_play_all q w xs Hl Hok) as (ys & Hperm & Hrun).
  assert (ys = xs) as ->.
  { destruct xs as [|x [|x' xs]]; [| |cbn in Hlen; lia].
    - by apply Permutation_nil_r.
    - by apply Permutation_singleton_r. }
  eexists. split; [exact Hrun|].
  destruct (after_playing_spec xs (shuffled_world xs xs w))
    as (Hout & _ & _ & _ & Hlists & _ & _ & Hrp & _); [done|].
  rewrite Hout, Hlists, Hrp. cbn [shuffled_world w_rand_pos w_lists w_out set_out
    set_rand_pos set_lists].
  split; [lia|]. split; [done|]. by rewrite <- !app_assoc.
Qed.

Lemma shuffle_of_at_most_one_song_witness :
  ∃ w', play_all (ShuffleDecorator (BasicPlaylist "Solo" 0%nat))
          (mkWorld None [] [[song_a]] [] [] (λ k, k) 0%nat (λ _, 0%Q) 0%nat)
        = Some (tt, w')
    ∧ w_rand_pos w' = 0%nat
    ∧ w_lists w' = [[song_a]] ++ [[song_a]]
    ∧ w_out w' = [] ++ [Print MsgShuffleEnabled; Print MsgPlayingShuffled]
                   ++ [Print MsgPlayerInitialized]
                   ++ concat (play_one_events None <$> [song_a]).
Proof.
  exact (shuffle_of_at_most_one_song (BasicPlaylist "Solo" 0%nat)
           (mkWorld None [] [[song_a]] [] [] (λ k, k) 0%nat (λ _, 0%Q) 0%nat)
           [song_a] eq_refl I ltac:(cbn; lia)).
Defined.

(** ** Where a base playlist leaves the player *)

Lemma played_all_keeps xs a :
  playback_strategy (played_all xs a) = playback_strategy a
  ∧ volume (played_all xs a) = volume a.
Proof.
  revert a. induction xs as [|x xs IH]; intros a; [done|].
  change (played_all (x :: xs) a) with (played_all xs (played x a)).
  destruct (IH (played x a)) as [-> ->]. unfold played.
  by destruct (playback_strategy a) eqn:E.
Qed.

Lemma played_all_last xs a s song :
  playback_strategy a = Some s → last xs = Some song →
  played_all xs a = mkPlayer (Some song) true (volume a) (Some s).
Proof.
  intros Hs [ys ->]%last_Some. unfold played_all. rewrite foldl_app. cbn.
  fold (played_all ys a). destruct (played_all_keeps ys a) as [Hst Hvol].
  unfold played. by rewrite Hst, Hs, Hvol.
Qed.

(** X15: when a strategy is set and the base playlist is not empty,
    [play_all] leaves the coordinator playing, with the playlist's last
    song as current song, and with the volume and the strategy it had;
    [get_status] then names that song. *)
Theorem basic_play_all_ends_on_last_song
    (w : world) (name : string) (l : loc) (xs : list Song) (song : Song)
    (s : PlaybackStrategy) :
  w_lists w !! l = Some xs →
  coordinator_ok w →
  last xs = Some song →
  playback_strategy (coordinator_attrs w) = Some s →
  ∃ w' self, play_all (BasicPlaylist name l) w = Some (tt, w')
    ∧ w_instance w' = Some self
    ∧ w_players w' !! self
      = Some (Ready (mkPlayer (Some song) true (volume (coordinator_attrs w)) (Some s)))
    ∧ MusicPlayer_get_status self w'
      = Some ("Status: Playing | Song: " +:+ title song +:+ " | Volume: "
              +:+ pretty (volume (coordinator_attrs w)), w').
Proof.
  intros Hl Hok Hlast Hs.
  set (w0 := set_out (w_out w ++ [Print (MsgPlayingPlaylist name)]) w).
  destruct (after_playing_spec xs w0) as (_ & Hp & Hi & _); [done|].
  change (coordinator_attrs w0) with (coordinator_attrs w) in Hp.
  rewrite (played_all_last _ _ _ _ Hs Hlast) in Hp.
  exists (after_playing xs w0), (access w0).1.
  split; [by apply run_basic_play_all|]. split; [done|]. split; [done|].
  by rewrite (run_get_status _ _ _ Hp).
Qed.

Lemma basic_play_all_ends_on_last_song_witness :
  ∃ w' self,
    play_all (BasicPlaylist "My Favorites" 0%nat)
      (set_lists [[song_a; song_b]] playing_world) = Some (tt, w')
    ∧ w_instance w' = Some self
    ∧ w_players w' !! self = Some (Ready (mkPlayer (Some song_b) true 75 (Some MP3Strategy)))
    ∧ MusicPlayer_get_status self w'
      = Some ("Status: Playing | Song: " +:+ title song_b +:+ " | Volume: "
              +:+ pretty 75, w').
Proof.
  exact (basic_play_all_ends_on_last_song (set_lists [[song_a; song_b]] playing_world)
           "My Favorites" 0%nat [song_a; song_b] song_b MP3Strategy
           eq_refl (ex_intro _ _ eq_refl) eq_refl eq_refl).
Defined.

(** ** The log of a repeated base playlist *)

Lemma count_events_app f evs1 evs2 :
  count_events f (evs1 ++ evs2) = (count_events f evs1 + count_events f evs2)%nat.
Proof. unfold count_events. by rewrite List.filter_app, length_app. Qed.

Lemma count_play_one_events st song :
  count_events is_banner (play_one_events st song) = 0%nat
  ∧ count_events is_repeat_notice (play_one_events st song) = 0%nat
  ∧ count_events is_song_pause (play_one_events st song) = 1%nat.
Proof. by destruct st as [[]|]. Qed.

Lemma count_songs_events st xs :
  count_events is_banner (concat (play_one_events st <$> xs)) = 0%nat
  ∧ count_events is_repeat_notice (concat (play_one_events st <$> xs)) = 0%nat
  ∧ count_events is_song_pause (concat (play_one_events st <$> xs)) = length xs.
Proof.
  induction xs as [|x xs (IH1 & IH2 & IH3)]; [done|].
  destruct (count_play_one_events st x) as (H1 & H2 & H3).
  cbn [fmap list_fmap concat length]. rewrite !count_events_app, IH1, IH2, IH3, H1, H2, H3.
  done.
Qed.

Lemma count_coordinator_events w :
  count_events is_banner (coordinator_events w) = 0%nat
  ∧ count_events is_repeat_notice (coordinator_events w) = 0%nat
  ∧ count_events is_song_pause (coordinator_events w) = 0%nat.
Proof.
  unfold coordinator_events.
  destruct (w_instance w) as [self|]; [|done].
  by destruct (w_players w !! self) as [[|a]|].
Qed.

(** The log of [k] passes over a base playlist holding [xs]. *)
Lemma passes_basic_log name l xs (k : nat) (round : Z) (w : world) :
  w_lists w !! l = Some xs → coordinator_ok w →
  ∃ w' evs, passes (play_all (BasicPlaylist name l)) k round w = Some (tt, w')
    ∧ w_out w' = w_out w ++ evs
    ∧ count_events is_banner evs = k
    ∧ count_events is_repeat_notice evs = (k - 1)%nat
    ∧ count_events is_song_pause evs = (k * length xs)%nat.
Proof.
  revert round w. induction k as [|k IH]; intros round w Hl Hok.
  { exists w, []. by rewrite app_nil_r. }
  cbn [passes]. rewrite run_bind.
  set (w0 := set_out (w_out w ++ [Print (MsgRound round)]) w).
  change (print (MsgRound round) w) with (Some (tt, w0)). cbn match.
  assert (Hl0 : w_lists w0 !! l = Some xs) by done.
  assert (Hok0 : coordinator_ok w0) by done.
  run_step (run_basic_play_all w0 name l xs Hl0 Hok0).
  set (wb := set_out (w_out w0 ++ [Print (MsgPlayingPlaylist name)]) w0).
  destruct (after_playing_spec xs wb) as (Hout & _ & _ & Hok1 & Hl1 & _); [done|].
  set (w1 := after_playing xs wb) in *.
  set (st := playback_strategy (coordinator_attrs wb)) in *.
  destruct (count_songs_events st xs) as (Hs1 & Hs2 & Hs3).
  destruct (count_coordinator_events wb) as (Hc1 & Hc2 & Hc3).
  assert (Hout1 : w_out w1 = w_out w ++ [Print (MsgRound round); Print (MsgPlayingPlaylist name)]
                    ++ coordinator_events wb ++ concat (play_one_events st <$> xs)).
  { rewrite Hout. cbn. by rewrite <- !app_assoc. }
  destruct k as [|k].
  { eexists w1, _. split; [done|]. split; [exact Hout1|].
    rewrite !count_events_app, Hs1, Hs2, Hs3, Hc1, Hc2, Hc3. cbn. split_and!; lia. }
  set (w2 := set_out ((w_out w1 ++ [Print MsgRepeating]) ++ [Sleep (3 # 10)]) w1).
  assert (Hp : repeat_pause w1 = Some (tt, w2)) by done.
  run_step Hp.
  destruct (IH (round + 1) w2) as (w' & evs & Hr & Hout' & Hb & Hn & Hsp).
  { change (w_lists w2) with (w_lists w1). by rewrite Hl1. }
  { done. }
  exists w'. eexists. split; [exact Hr|]. split.
  { rewrite Hout'.
    change (w_out w2) with ((w_out w1 ++ [Print MsgRepeating]) ++ [Sleep (3 # 10)]).
    rewrite Hout1, <- !app_assoc. reflexivity. }
  rewrite !count_events_app, Hs1, Hs2, Hs3, Hc1, Hc2, Hc3, Hb, Hn, Hsp. cbn.
  change (Qeq_bool (3 # 10) (2 # 10)) with false. cbn.
  split_and!; lia.
Qed.

(** X16: the log of a repeated base playlist.  [play_all] on a
    [RepeatDecorator] with count [n] over a base playlist of [length xs]
    songs appends to the log [n] playlist banners, [n - 1] notices of
    repetition and [n * length xs] pauses after songs (none of any when
    [n <= 0]). *)
Theorem repeat_log_accounting (w : world) (name : string) (l : loc) (xs : list Song) (n : Z) :
  w_lists w !! l = Some xs →
  coordinator_ok w →
  ∃ w' evs, play_all (RepeatDecorator (BasicPlaylist name l) n) w = Some (tt, w')
    ∧ w_out w' = w_out w ++ evs
    ∧ count_events is_banner evs = Z.to_nat n
    ∧ count_events is_repeat_notice evs = (Z.to_nat n - 1)%nat
    ∧ count_events is_song_pause evs = (Z.to_nat n * length xs)%nat.
Proof.
  intros Hl Hok. destruct (decide (0 ≤ n)) as [Hn|Hn].
  - cbn [play_all]. rewrite run_repeat_passes by done. rewrite run_bind.
    set (w0 := set_out (w_out w ++ [Print (MsgRepeatEnabled n)]) w).
    change (print (MsgRepeatEnabled n) w) with (Some (tt, w0)). cbn match.
    destruct (passes_basic_log name l xs (Z.to_nat n) 1 w0)
      as (w' & evs & Hr & Hout & Hb & Hrn & Hsp); [done|done|].
    exists w', (Print (MsgRepeatEnabled n) :: evs). split; [exact Hr|]. split.
    { rewrite Hout. cbn. by rewrite <- app_assoc. }
    change (Print (MsgRepeatEnabled n) :: evs) with ([Print (MsgRepeatEnabled n)] ++ evs).
    rewrite !count_events_app, Hb, Hrn, Hsp. done.
  - cbn [play_all]. rewrite run_repeat_nonpositive by lia.
    eexists _, _. split; [reflexivity|]. split; [reflexivity|].
    rewrite Z2Nat.nonpos by lia. done.
Qed.

Lemma repeat_log_accounting_witness :
  ∃ w' evs,
    play_all (RepeatDecorator (BasicPlaylist "My Favorites" 0%nat) 3) two_songs_world
      = Some (tt, w')
    ∧ w_out w' = w_out two_songs_world ++ evs
    ∧ count_events is_banner evs = Z.to_nat 3
    ∧ count_events is_repeat_notice evs = (Z.to_nat 3 - 1)%nat
    ∧ count_events is_song_pause evs = (Z.to_nat 3 * 2)%nat.
Proof.
  exact (repeat_log_accounting two_songs_world "My Favorites" 0%nat [song_a; song_b] 3
           eq_refl I).
Defined.

(** ** Selecting a strategy for any tag *)

(** X17: the lookup of a strategy never raises, since the default it asks
    for, under "mp3", is in the dictionary.  It selects the FLAC strategy
    exactly for the tag "flac", the streaming strategy exactly for the tag
    "streaming", and the MP3 strategy for every other tag; tags are
    compared as they are, so "FLAC" selects the MP3 strategy. *)
Theorem select_strategy_by_tag (song : Song) (w : world) :
  select_strategy song w =
    Some (if decide (format_type song = "flac") then FLACStrategy
          else if decide (format_type song = "streaming") then StreamingStrategy
          else MP3Strategy, w)
  ∧ select_strategy (mkSong (title song) (artist song) (duration song) "FLAC") w
    = Some (MP3Strategy, w).
Proof.
  split; [|done].
  unfold select_strategy, dict_getitem, dict_get. rewrite strategies_lookup_mp3.
  destruct (decide (format_type song = "flac")) as [->|H1]; [done|].
  destruct (decide (format_type song = "streaming")) as [->|H2]; [done|].
  destruct (decide (format_type song = "mp3")) as [->|H3]; [done|].
  by rewrite (strategies_lookup_unknown _ H3 H1 H2).
Qed.

(** ** Describing a decorated playlist *)

Lemma string_app_nil_r (s : string) : s +:+ "" = s.
Proof.
  induction s as [|a s IH]; [done|].
  change (String a s +:+ "") with (String a (s +:+ "")). by rewrite IH.
Qed.

Lemma string_app_assoc (s1 s2 s3 : string) : (s1 +:+ s2) +:+ s3 = s1 +:+ s2 +:+ s3.
Proof.
  induction s1 as [|a s1 IH]; [done|].
  change ((String a s1 +:+ s2) +:+ s3) with (String a ((s1 +:+ s2) +:+ s3)).
  by rewrite IH.
Qed.

Lemma run_basic_get_info w name l xs :
  w_lists w !! l = Some xs →
  BasicPlaylist_get_info name l w = Some (basic_info name xs, w).
Proof.
  intros H. unfold BasicPlaylist_get_info, basic_info.
  run_step (run_list_read _ _ _ H). by rewrite py_sum_total.
Qed.

(** X18: [get_info] on a well-formed stack of decorators raises nothing and
    changes nothing.  The text it returns starts with the text of the base
    playlist (name, number of songs, total duration); each decorator only
    appends its own mark to what it wraps, and a bare base playlist appends
    nothing.  The mark of a [ShuffleDecorator] is fixed, that of a
    [RepeatDecorator] shows its number of passes, and that of an
    [AnalyticsDecorator] shows its play count and its total time to one
    decimal: a minus sign if the total is negative, then the nearest number
    of tenths, ties to even, written with a point before its last digit. *)
Theorem get_info_extends_base_text (p : Playlist) (w : world) :
  valid w p →
  ∃ xs suffix,
    w_lists w !! base_songs p = Some xs
    ∧ get_info p w = Some (basic_info (base_name p) xs +:+ suffix, w)
    ∧ (∀ name l, p = BasicPlaylist name l → suffix = "")
    ∧ (∀ q, p = ShuffleDecorator q →
         ∃ inner, get_info q w = Some (inner, w)
           ∧ get_info p w = Some (inner +:+ " | 🔀 Shuffle: ON", w))
    ∧ (∀ q n, p = RepeatDecorator q n →
         ∃ inner, get_info q w = Some (inner, w)
           ∧ get_info p w = Some (inner +:+ " | 🔁 Repeat: " +:+ pretty n +:+ "x", w))
    ∧ (∀ q c, p = AnalyticsDecorator q c →
         ∃ s inner sign tenths,
           w_stats w !! c = Some s
           ∧ get_info q w = Some (inner, w)
           ∧ nearest_even (total_listening_time s * 10) tenths
           ∧ ((total_listening_time s < 0)%Q → sign = "-")
           ∧ ((0 <= total_listening_time s)%Q → sign = "")
           ∧ get_info p w =
             Some (inner +:+ " | 📊 Plays: " +:+ pretty (play_count s)
                   +:+ ", Total time: " +:+ sign
                   +:+ pretty (Z.abs tenths `div` 10) +:+ "."
                   +:+ pretty (Z.abs tenths `mod` 10) +:+ "s", w)).
Proof.
  induction p as [name l|q IH|q IH n|q IH c]; cbn [valid base_songs base_name get_info].
  - intros [xs Hxs]. exists xs, "". split; [done|].
    rewrite string_app_nil_r. split; [by apply run_basic_get_info|]. by split_and!.
  - intros Hv. destruct (IH Hv) as (xs & suffix & Hxs & Hr & _).
    exists xs, (suffix +:+ " | 🔀 Shuffle: ON"). split; [done|].
    run_step Hr. split; [by rewrite string_app_assoc|]. split_and!; try done.
    intros q' [= <-]. by eexists.
  - intros Hv. destruct (IH Hv) as (xs & suffix & Hxs & Hr & _).
    exists xs, (suffix +:+ " | 🔁 Repeat: " +:+ pretty n +:+ "x"). split; [done|].
    run_step Hr. split; [by rewrite string_app_assoc|]. split_and!; try done.
    intros q' n' [= <- <-]. by eexists.
  - intros [[s Hs] Hv]. destruct (IH Hv) as (xs & suffix & Hxs & Hr & _).
    exists xs, (suffix +:+ " | 📊 Plays: " +:+ pretty (play_count s) +:+ ", Total time: "
                +:+ format_1f (total_listening_time s) +:+ "s").
    split; [done|].
    run_step (run_stats_read _ _ _ Hs). run_step Hr.
    split; [by rewrite string_app_assoc|]. split_and!; try done.
    intros q' c' [= <- <-].
    exists s, (basic_info (base_name q) xs +:+ suffix),
      (match (total_listening_time s ?= 0)%Q with Lt => "-" | _ => "" end),
      (round_half_even (total_listening_time s * 10)).
    split; [done|]. split; [done|]. split; [apply round_half_even_nearest|].
    split; [by intros ->%Qlt_alt|]. split.
    { intros H. destruct (total_listening_time s ?= 0)%Q eqn:Hc; try done.
      apply (proj2 (Qlt_alt _ _)) in Hc. lra. }
    unfold format_1f. by rewrite !string_app_assoc.
Qed.

Lemma get_info_extends_base_text_witness :
  get_info tracked_favorites analytics_world
  = Some ("Playlist: My Favorites | Songs: 2 | Duration: 380s"
          +:+ " | 📊 Plays: 0, Total time: 0.0s", analytics_world).
Proof.
  destruct (get_info_extends_base_text tracked_favorites analytics_world
              (conj (ex_intro _ (mkStats 0 0) eq_refl) (ex_intro _ [song_a; song_b] eq_refl)))
    as (xs & suffix & _ & _ & _ & _ & _ & H).
  destruct (H _ _ eq_refl) as (s & inner & sign & tenths & Hs & Hinner & [Hn _] & _ & Hsign & Hr).
  injection Hs as <-. injection Hinner as <-.
  cbn [total_listening_time] in Hn, Hsign.
  rewrite (Hsign ltac:(done)) in Hr.
  assert (tenths = 0) as ->; [|exact Hr].
  apply Qabs_Qle_condition in Hn as [H1 H2].
  assert (inject_Z (-1) < inject_Z tenths)%Q as H3
    by (change (inject_Z (-1)) with (-1 # 1)%Q; lra).
  assert (inject_Z tenths < inject_Z 1)%Q as H4
    by (change (inject_Z 1) with 1%Q; lra).
  rewrite <- Zlt_Qlt in H3, H4. lia.
Defined.

(** ** What a shuffle passes by *)

Lemma get_songs_base (p : Playlist) (name : string) (w : world) :
  get_songs p w = get_songs (BasicPlaylist name (base_songs p)) w.
Proof. induction p as [name' l|q IH|q IH n|q IH c]; cbn [get_songs base_songs]; done. Qed.

(** X19: a [ShuffleDecorator] plays through the coordinator itself and never
    calls the wrapped [play_all].  On any stack [p] it does what it does on
    the bare base playlist under [p]: each song is played once, whatever
    repetition is wrapped inside, and no counter of an [AnalyticsDecorator]
    wrapped inside changes. *)
Theorem shuffle_bypasses_wrapped_decorators (p : Playlist) (w : world) (xs : list Song) :
  w_lists w !! base_songs p = Some xs →
  coordinator_ok w →
  (∀ name w0, play_all (ShuffleDecorator p) w0
              = play_all (ShuffleDecorator (BasicPlaylist name (base_songs p))) w0)
  ∧ ∃ w' evs, play_all (ShuffleDecorator p) w = Some (tt, w')
      ∧ w_stats w' = w_stats w
      ∧ w_out w' = w_out w ++ evs
      ∧ count_events is_song_pause evs = length xs
      ∧ count_events is_repeat_notice evs = 0%nat.
Proof.
  intros Hl Hok. split.
  { intros name w0. cbn [play_all]. unfold ShuffleDecorator_play_all.
    rewrite !run_bind. destruct (print MsgShuffleEnabled w0) as [[[] w1]|]; [|done].
    rewrite (run_bind (get_songs (ShuffleDecorator p))),
      (run_bind (get_songs (ShuffleDecorator (BasicPlaylist name (base_songs p))))).
    change (get_songs (ShuffleDecorator p) w1) with (get_songs p w1).
    by rewrite (get_songs_base p name w1). }
  destruct (run_shuffle_play_all p w xs Hl Hok) as (ys & Hperm & Hrun).
  set (ws := shuffled_world xs ys w) in *.
  destruct (after_playing_spec ys ws) as (Hout & _ & _ & _ & _ & Hstats & _); [done|].
  destruct (count_songs_events (playback_strategy (coordinator_attrs ws)) ys)
    as (_ & Hn & Hsp).
  destruct (count_coordinator_events ws) as (_ & Hcn & Hcs).
  exists (after_playing ys ws). eexists. split; [exact Hrun|]. split; [done|]. split.
  { rewrite Hout.
    change (w_out ws) with (w_out w ++ [Print MsgShuffleEnabled; Print MsgPlayingShuffled]).
    rewrite <- !app_assoc. reflexivity. }
  rewrite !count_events_app, Hn, Hsp, Hcn, Hcs. cbn.
  by rewrite (Permutation_length Hperm).
Qed.

Lemma shuffle_bypasses_wrapped_decorators_witness :
  ∃ w' evs,
    play_all (ShuffleDecorator (RepeatDecorator tracked_favorites 3)) analytics_world
      = Some (tt, w')
    ∧ w_stats w' = w_stats analytics_world
    ∧ w_out w' = w_out analytics_world ++ evs
    ∧ count_events is_song_pause evs = 2%nat
    ∧ count_events is_repeat_notice evs = 0%nat.
Proof.
  exact (proj2 (shuffle_bypasses_wrapped_decorators
                  (RepeatDecorator tracked_favorites 3) analytics_world
                  [song_a; song_b] eq_refl I)).
Defined.

(** ** Insertion order *)

Lemma add_songs_append (p : Playlist) (ys : list Song) (w : world) (xs : list Song) :
  w_lists w !! base_songs p = Some xs →
  ∃ w', for_ ys (add_song p) w = Some (tt, w')
    ∧ w_lists w' = <[base_songs p := xs ++ ys]> (w_lists w).
Proof.
  revert w xs. induction ys as [|y ys IH]; intros w xs H.
  { exists w. by rewrite app_nil_r, (list_insert_id _ _ _ H). }
  rewrite run_for_cons, (run_add_song_exact p y w xs H).
  set (w1 := set_out _ _).
  destruct (IH w1 (xs ++ [y])) as (w' & Hr & Hl').
  { cbn. by eapply lists_insert_lookup. }
  exists w'. split; [done|].
  rewrite Hl'. cbn. by rewrite list_insert_insert_eq, <- app_assoc.
Qed.

(** X20: songs added one after the other, through any stack of decorators,
    end up after the songs the base playlist held, in the order they were
    added; no other list changes.  A playlist built by [BasicPlaylist(name)]
    and filled that way holds exactly the songs added, in that order. *)
Theorem add_songs_keep_insertion_order (p : Playlist) (ys : list Song) (w : world)
    (xs : list Song) :
  w_lists w !! base_songs p = Some xs →
  (∃ w', for_ ys (add_song p) w = Some (tt, w')
     ∧ w_lists w' !! base_songs p = Some (xs ++ ys)
     ∧ ∀ l, l ≠ base_songs p → w_lists w' !! l = w_lists w !! l)
  ∧ (∀ name, ∃ l w',
       (b ← new_BasicPlaylist name; for_ ys (add_song b);; mret b) w
         = Some (BasicPlaylist name l, w')
       ∧ w_lists w' !! l = Some ys
       ∧ w_lists w' !! base_songs p = Some xs).
Proof.
  intros H. split.
  - destruct (add_songs_append p ys w xs H) as (w' & Hr & Hl).
    exists w'. split; [done|]. rewrite Hl.
    split; [by eapply lists_insert_lookup|].
    intros l Hne. by apply list_lookup_insert_ne.
  - intros name.
    destruct (new_BasicPlaylist_empty name w) as (w1 & Hr1 & Hl1 & _).
    destruct (add_songs_append (BasicPlaylist name (length (w_lists w))) ys w1 [] Hl1)
      as (w' & Hr & Hl).
    exists (length (w_lists w)), w'. run_step Hr1. run_step Hr.
    split; [done|]. rewrite Hl. cbn [base_songs].
    split; [by eapply lists_insert_lookup|].
    pose proof (lookup_lt_Some _ _ _ H).
    rewrite list_lookup_insert_ne by lia.
    injection Hr1 as <-. cbn. by apply lookup_app_l_Some.
Qed.

Lemma add_songs_keep_insertion_order_witness :
  ∃ w', for_ [song_b; song_a]
          (add_song (ShuffleDecorator (BasicPlaylist "My Favorites" 0%nat))) two_songs_world
        = Some (tt, w')
    ∧ w_lists w' !! 0%nat = Some ([song_a; song_b] ++ [song_b; song_a])
    ∧ ∀ l, l ≠ 0%nat → w_lists w' !! l = w_lists two_songs_world !! l.
Proof.
  exact (proj1 (add_songs_keep_insertion_order
                  (ShuffleDecorator (BasicPlaylist "My Favorites" 0%nat))
                  [song_b; song_a] two_songs_world [song_a; song_b] eq_refl)).
Defined.
